(** * The authenticated session of the Tado client (src/tado/tado.py)

    A shallow embedding of the class [Tado]: the object's attributes are a
    record, every coroutine is a function in a state-and-exception monad over
    the object and the outside world (clock, transport handles, the log of
    transport calls), and the HTTP server, the clock and the JSON decoders of
    the libraries are an environment the functions are parametrised by.

    Conventions of the model:
    - instants and durations ([time.time()], [expires_in], latencies) are
      rationals, computed exactly; the rounding of Python's floats is not
      modelled;
    - a transport handle is an [aiohttp.ClientSession] in its default
      configuration; [ClientResponse.raise_for_status] raises
      [ClientResponseError] when the status is 400 or above, after it has
      released the response; [ClientResponse.text] gives the body of a
      response that was not released, and on a released one it raises the
      library's [ClientConnectionError], with the message
      [Connection closed];
    - a transport call is a call of [session.post] or [session.request];
      the world logs each of them with the handle it went through, and what
      comes back is the environment's: that a handle which was closed
      refuses the call is not modelled;
    - the token endpoint's JSON object holds strings for the two tokens and
      a number for [expires_in]; the decoders of the libraries and of
      [tado.models] are parameters. *)

From Stdlib Require Import ZArith QArith Lqa Lia List String.
From Stdlib Require Import DecimalString.
Import ListNotations.

Open Scope string_scope.

(** ** Python values used by the class *)

(** [str(n)] for an [int]. *)
Definition str_of_int (z : Z) : string :=
  NilZero.string_of_int (Z.to_int z).

(** [needle in hay] for two [str]. *)
Fixpoint str_in (needle hay : string) : bool :=
  if String.prefix needle hay then true
  else match hay with
       | EmptyString => false
       | String _ rest => str_in needle rest
       end.

(** [f"{v}"] for an attribute that holds a [str] or [None]. *)
Definition fmt (v : option string) : string :=
  match v with
  | Some s => s
  | None => "None"
  end.

(** Modelled from the spec: the exception classes of [tado.exceptions], which
    is not among the sources.  [TadoException] is the generic error (the
    spec's ServiceError and ProtocolError), the four others are the spec's
    ConnectionError, BadRequestError, AuthenticationError and ForbiddenError;
    each is built from one message.  The remaining constructors are the
    exceptions of the Python runtime and of the libraries that the class lets
    through: [ClientError] is what [aiohttp] raises when the connection
    fails, [ClientConnectionError] what it raises when the body of a
    released response is read. *)
Inductive Exn : Type :=
| TadoException (msg : string)
| TadoConnectionError (msg : string)
| TadoBadRequestError (msg : string)
| TadoAuthenticationError (msg : string)
| TadoForbiddenError (msg : string)
| TypeError
| AttributeError
| IndexError
| KeyError (key : string)
| DecodeError
| ClientError
| ClientConnectionError (msg : string).

(** Modelled from the spec: [tado.const.HttpMethod], which is not among the
    sources; an enumeration whose [value] is the method's name. *)
Inductive HttpMethod : Type := GET | POST | PUT | DELETE | PATCH.

Definition HttpMethod_value (m : HttpMethod) : string :=
  match m with
  | GET => "GET"
  | POST => "POST"
  | PUT => "PUT"
  | DELETE => "DELETE"
  | PATCH => "PATCH"
  end.

(** Modelled from the spec: the part of [tado.models.GetMe] the class reads,
    the list of homes of the user and the identifier of each. *)
Record Home : Type := mkHome { id : Z }.
Record GetMe : Type := mkGetMe { homes : list Home }.

(** ** Transport *)

(** A [ClientSession] object: one the caller made, or the n-th one made by
    the class itself ([ClientSession()] in [_login]). *)
Inductive Handle : Type :=
| CallerHandle (n : nat)
| OwnHandle (n : nat).

(** The arguments of [session.post(url=, data=)] and of
    [session.request(method=, url=, headers=, json=)]. *)
Record Request : Type := mkRequest {
  req_method : string;
  req_url : string;
  req_headers : list (string * string);
  req_data : option (list (string * option string));
  req_json : option string
}.

(** What the class reads of a [ClientResponse]: [status],
    [headers.get("content-type")] and the body, which [text()] gives
    while the response is not released. *)
Record Response : Type := mkResponse {
  status : Z;
  content_type : option string;
  text : string
}.

(** What a transport call meets: a response after some time, a failure of the
    connection after some time, or nothing at all. *)
Inductive Outcome : Type :=
| Answer (latency : Q) (r : Response)
| ConnFail (latency : Q)
| Silent.

(** The JSON object of the token endpoint as the class reads it: the three
    keys, each possibly missing. *)
Record TokenJson : Type := mkTokenJson {
  access_token : option string;
  expires_in : option Q;
  refresh_token : option string
}.

(** ** The object and the world *)

Record Tado : Type := mkTado {
  session : option Handle;
  request_timeout : Z;
  _username : option string;
  _password : option string;
  _debug : bool;
  _headers : list (string * string);
  _access_token : option string;
  _token_expiry : option Q;
  _refesh_token : option string;
  _access_headers : option (list (string * string));
  _home_id : option Z;
  _me : option GetMe;
  _close_session : option bool   (* [None]: the attribute does not exist *)
}.

Record World : Type := mkWorld {
  reads : nat;                      (* readings of the clock so far *)
  sent : list (Handle * Request);   (* transport calls so far, oldest first *)
  made : nat;                       (* handles made by the class so far *)
  closed : list Handle              (* handles closed by the class so far *)
}.

Definition set_session (v : option Handle) (s : Tado) : Tado :=
  mkTado v (request_timeout s) (_username s) (_password s) (_debug s)
    (_headers s) (_access_token s) (_token_expiry s) (_refesh_token s)
    (_access_headers s) (_home_id s) (_me s) (_close_session s).

Definition set_close_session (v : option bool) (s : Tado) : Tado :=
  mkTado (session s) (request_timeout s) (_username s) (_password s) (_debug s)
    (_headers s) (_access_token s) (_token_expiry s) (_refesh_token s)
    (_access_headers s) (_home_id s) (_me s) v.

Definition set_access_token (v : option string) (s : Tado) : Tado :=
  mkTado (session s) (request_timeout s) (_username s) (_password s) (_debug s)
    (_headers s) v (_token_expiry s) (_refesh_token s)
    (_access_headers s) (_home_id s) (_me s) (_close_session s).

Definition set_token_expiry (v : option Q) (s : Tado) : Tado :=
  mkTado (session s) (request_timeout s) (_username s) (_password s) (_debug s)
    (_headers s) (_access_token s) v (_refesh_token s)
    (_access_headers s) (_home_id s) (_me s) (_close_session s).

Definition set_refesh_token (v : option string) (s : Tado) : Tado :=
  mkTado (session s) (request_timeout s) (_username s) (_password s) (_debug s)
    (_headers s) (_access_token s) (_token_expiry s) v
    (_access_headers s) (_home_id s) (_me s) (_close_session s).

Definition set_home_id (v : option Z) (s : Tado) : Tado :=
  mkTado (session s) (request_timeout s) (_username s) (_password s) (_debug s)
    (_headers s) (_access_token s) (_token_expiry s) (_refesh_token s)
    (_access_headers s) v (_me s) (_close_session s).

Definition set_me (v : option GetMe) (s : Tado) : Tado :=
  mkTado (session s) (request_timeout s) (_username s) (_password s) (_debug s)
    (_headers s) (_access_token s) (_token_expiry s) (_refesh_token s)
    (_access_headers s) (_home_id s) v (_close_session s).

(** [tado.request_timeout = v], the assignment a caller can make. *)
Definition set_request_timeout (v : Z) (s : Tado) : Tado :=
  mkTado (session s) v (_username s) (_password s) (_debug s)
    (_headers s) (_access_token s) (_token_expiry s) (_refesh_token s)
    (_access_headers s) (_home_id s) (_me s) (_close_session s).

(** ** The monad of the coroutines *)

Inductive Result (A : Type) : Type :=
| Ok (a : A)
| Raise (e : Exn).
Arguments Ok {A} a.
Arguments Raise {A} e.

Definition M (A : Type) : Type := Tado -> World -> Result A * Tado * World.

Definition ret {A} (a : A) : M A := fun s w => (Ok a, s, w).

Definition raise {A} (e : Exn) : M A := fun s w => (Raise e, s, w).

Definition bind {A B} (m : M A) (k : A -> M B) : M B :=
  fun s w =>
    match m s w with
    | (Ok a, s', w') => k a s' w'
    | (Raise e, s', w') => (Raise e, s', w')
    end.

Definition self : M Tado := fun s w => (Ok s, s, w).

Definition assign (f : Tado -> Tado) : M unit := fun s w => (Ok tt, f s, w).

Declare Scope py_scope.
Delimit Scope py_scope with py.
Notation "x <- m ;; k" := (bind m (fun x => k))
  (at level 100, m at next level, right associativity) : py_scope.
Notation "m ;; k" := (bind m (fun _ => k))
  (at level 100, right associativity) : py_scope.
Open Scope py_scope.

(** [d[key]] on the decoded token object. *)
Definition getitem {A} (key : string) (v : option A) : M A :=
  match v with
  | Some a => ret a
  | None => raise (KeyError key)
  end.

(** Literal comparison of two instants: [x < y]. *)
Definition Qltb (x y : Q) : bool :=
  if Qlt_le_dec x y then true else false.

(** [key in d] and [d.get(key, default)] for a [dict] written as the list of
    its items. *)
Definition dict_in {V} (key : Z) (d : list (Z * V)) : bool :=
  existsb (fun kv => Z.eqb (fst kv) key) d.

Fixpoint dict_get {V} (key : Z) (d : list (Z * V)) (default : V) : V :=
  match d with
  | [] => default
  | (k, v) :: rest => if Z.eqb k key then v else dict_get key rest default
  end.

(** A list comprehension [[f(x) for x in obj]] whose [f] may raise. *)
Fixpoint comprehension {A B} (f : A -> option B) (obj : list A) : M (list B) :=
  match obj with
  | [] => ret []
  | x :: rest =>
      match f x with
      | None => raise DecodeError
      | Some y => ys <- comprehension f rest ;; ret (y :: ys)
      end
  end.

(** ** The class *)

Definition _client_id : string := "tado-web-app".
Definition _client_secret : string :=
  "wZaRN7rpjn3FoNyF5IFuxg9uMzYJcvOoQ8QWiIqS3hfk6gLhVlG57j5YNoZL2Rtc".
Definition _authorization_base_url : string :=
  "https://auth.tado.com/oauth/authorize".
Definition _token_url : string := "https://auth.tado.com/oauth/token".
Definition _api_url : string := "my.tado.com/api/v2".

(** A value a caller may pass to the constructor. *)
Inductive Arg : Type :=
| AStr (s : string)
| ABool (b : bool)
| AInt (z : Z)
| AHandle (h : Handle)
| ANone.

(** [Tado.__init__(self, username, password, debug=False)].  The attributes
    [session], [request_timeout] and [_debug] are not assigned by it and keep
    the defaults of the class; [_close_session] does not exist yet. *)
Definition __init__ (username password : string) (debug : Arg) : Tado :=
  {| session := None;
     request_timeout := 10;
     _username := Some username;
     _password := Some password;
     _debug := false;
     _headers := [("Content-Type", "application/json");
                  ("Referer", "https://app.tado.com/")];
     _access_token := None;
     _token_expiry := None;
     _refesh_token := None;
     _access_headers := None;
     _home_id := None;
     _me := None;
     _close_session := None |}.

(** The call [Tado(username, password, *extra, **kwargs)] bound against the
    signature of [__init__]: after the two strings only [debug] is left, by
    position or by keyword; anything else is a [TypeError] of the call. *)
Definition construct (username password : string) (extra : list Arg)
    (kwargs : list (string * Arg)) : Result Tado :=
  match extra with
  | [] =>
      match kwargs with
      | [] => Ok (__init__ username password (ABool false))
      | [(key, v)] =>
          if String.eqb key "debug" then Ok (__init__ username password v)
          else Raise TypeError
      | _ => Raise TypeError
      end
  | [debug] =>
      match kwargs with
      | [] => Ok (__init__ username password debug)
      | _ => Raise TypeError
      end
  | _ => Raise TypeError
  end.

(** [session.post(url=url, data=data)]. *)
Definition post (url : string) (data : list (string * option string)) : Request :=
  {| req_method := "POST"; req_url := url; req_headers := [];
     req_data := Some data; req_json := None |}.

(** [URL.build(scheme="https", host=_api_url).joinpath(uri)] as a string. *)
Definition api_url (uri : string) : string :=
  "https://" ++ _api_url ++ "/" ++ uri.

Definition timeout_message : string :=
  "Timeout occurred while connecting to Tado.".

(** The four ways the class acts on the world. *)
Definition tick (w : World) : World :=
  {| reads := S (reads w); sent := sent w; made := made w;
     closed := closed w |}.

Definition log (h : Handle) (req : Request) (w : World) : World :=
  {| reads := reads w; sent := (sent w ++ [(h, req)])%list; made := made w;
     closed := closed w |}.

Definition make (w : World) : World :=
  {| reads := reads w; sent := sent w; made := S (made w);
     closed := closed w |}.

Definition shut (h : Handle) (w : World) : World :=
  {| reads := reads w; sent := sent w; made := made w;
     closed := (closed w ++ [h])%list |}.

(** ** Vocabulary of the statements *)

(** The error [check_request_status] raises for a response whose body can
    still be read. *)
Definition status_error (r : Response) : Exn :=
  if (400 =? status r)%Z then
    TadoBadRequestError ("Bad request to Tado. Response body: " ++ text r)
  else if (401 =? status r)%Z then
    TadoAuthenticationError
      ("Authentication error connecting to Tado. Response body: " ++ text r)
  else if (403 =? status r)%Z then
    TadoForbiddenError
      ("Forbidden error connecting to Tado. Response body: " ++ text r)
  else
    TadoException
      ("Error " ++ str_of_int (status r)
       ++ " connecting to Tado. Response body: " ++ text r).

(** A call exceeds the timeout [tmo]. *)
Definition exceeds (tmo : Z) (out : Outcome) : Prop :=
  match out with
  | Silent => True
  | ConnFail latency | Answer latency _ => (inject_Z tmo < latency)%Q
  end.

(** What [ClientResponse.text] raises on a released response. *)
Definition connection_closed : Exn :=
  ClientConnectionError "Connection closed".

(** How a request site ends for each outcome of its call.  An answer in time
    with a status of 400 or above makes [raise_for_status] release the
    response and raise; the handler calls [check_request_status], whose
    first [await request.text()] raises on the released response. *)
Definition verdict (tmo : Z) (out : Outcome) : Result Response :=
  match out with
  | Silent => Raise (TadoConnectionError timeout_message)
  | ConnFail latency =>
      if Qltb (inject_Z tmo) latency
      then Raise (TadoConnectionError timeout_message)
      else Raise ClientError
  | Answer latency r =>
      if Qltb (inject_Z tmo) latency
      then Raise (TadoConnectionError timeout_message)
      else if (400 <=? status r)%Z then Raise connection_closed else Ok r
  end.

(** A transport call fails with [e]: it exceeds the timeout, it is answered
    in time with a status of 400 or above, or the connection fails in
    time. *)
Definition failure (tmo : Z) (out : Outcome) (e : Exn) : Prop :=
  (exceeds tmo out /\ e = TadoConnectionError timeout_message)
  \/ (exists latency r,
        out = Answer latency r /\ ~ (inject_Z tmo < latency)%Q
        /\ (400 <= status r)%Z /\ e = connection_closed)
  \/ (exists latency,
        out = ConnFail latency /\ ~ (inject_Z tmo < latency)%Q
        /\ e = ClientError).

(** The requests of the three sites, for an object in state [s]. *)
Definition login_request (s : Tado) : Request :=
  post _token_url
    [ ("client_id", Some _client_id);
      ("client_secret", Some _client_secret);
      ("grant_type", Some "password");
      ("scope", Some "home.user");
      ("username", _username s);
      ("password", _password s) ].

Definition refresh_request (s : Tado) : Request :=
  post _token_url
    [ ("client_id", Some _client_id);
      ("client_secret", Some _client_secret);
      ("grant_type", Some "refresh_token");
      ("scope", Some "home.user");
      ("refresh_token", _refesh_token s) ].

Definition api_request (s : Tado) (uri : string) (data : option string)
    (method : HttpMethod) : Request :=
  {| req_method := HttpMethod_value method;
     req_url := api_url uri;
     req_headers := [("Authorization", "Bearer " ++ fmt (_access_token s))];
     req_data := None;
     req_json := data |}.

(** The object after the three assignments that store a token response. *)
Definition store_tokens (a : string) (expiry : Q) (r : string) (s : Tado) : Tado :=
  set_refesh_token (Some r)
    (set_token_expiry (Some expiry) (set_access_token (Some a) s)).

Section Session.

Context {Json Device MobileDevice Zone : Type}.

(** What the class does not decide: the clock, the server behind the
    transport, and the decoders of aiohttp, orjson and [tado.models] (a
    decoder that raises gives [None]). *)
Record Env : Type := mkEnv {
  clock : nat -> Q;
  server : nat -> Request -> Outcome;
  response_json : Response -> option TokenJson;
  GetMe_from_json : string -> option GetMe;
  orjson_loads : string -> option (list Json);
  Device_from_dict : Json -> option Device;
  MobileDevice_from_dict : Json -> option MobileDevice;
  Zone_from_dict : Json -> option Zone
}.

Variable E : Env.

(** [time.time()]. *)
Definition time_time : M Q :=
  fun s w => (Ok (clock E (reads w)), s, tick w).

(** [ClientSession()]. *)
Definition ClientSession : M Handle :=
  fun s w => (Ok (OwnHandle (made w)), s, make w).

(** [await session.close()]. *)
Definition ClientSession_close (h : Handle) : M unit :=
  fun s w => (Ok tt, s, shut h w).

(** The call itself: logged, and met by what the server does with it. *)
Definition transport (h : Handle) (req : Request) : M Outcome :=
  fun s w => (Ok (server E (List.length (sent w)) req), s, log h req w).

(** [await request.json()] and the decoders of the accessors. *)
Definition json (request : Response) : M TokenJson :=
  match response_json E request with
  | Some d => ret d
  | None => raise DecodeError
  end.

Definition decode {A} (f : string -> option A) (response : string) : M A :=
  match f response with
  | Some a => ret a
  | None => raise DecodeError
  end.

(** [await request.text()] on a response that [raise_for_status] has
    released ([released] is [true]) or has not. *)
Definition response_text (released : bool) (request : Response) : M string :=
  if released then raise connection_closed else ret (text request).

(** [Tado.check_request_status] on a response that was released or was not:
    the dictionary is built first, one [await request.text()] per entry, in
    the order of the source.  It always raises. *)
Definition check_request_status {A} (released : bool) (request : Response)
  : M A :=
  body400 <- response_text released request ;;
  body500 <- response_text released request ;;
  body401 <- response_text released request ;;
  body403 <- response_text released request ;;
  let status_error_mapping :=
    [ (400%Z, TadoBadRequestError
              ("Bad request to Tado. Response body: " ++ body400));
      (500%Z, TadoException
              ("Error " ++ str_of_int (status request)
               ++ " connecting to Tado. Response body: " ++ body500));
      (401%Z, TadoAuthenticationError
              ("Authentication error connecting to Tado. Response body: "
               ++ body401));
      (403%Z, TadoForbiddenError
              ("Forbidden error connecting to Tado. Response body: "
               ++ body403)) ] in
  if dict_in (status request) status_error_mapping then
    raise (dict_get (status request) status_error_mapping
             (TadoException
                ("Error " ++ str_of_int (status request)
                 ++ " connecting to Tado.")))
  else
    body <- response_text released request ;;
    raise (TadoException
             ("Error " ++ str_of_int (status request)
              ++ " connecting to Tado. Response body: " ++ body)).

(** The block shared by the three request sites ([_login] l.72-79,
    [_refresh_auth] l.134-141, [_request] l.192-201):
<<
    try:
        async with asyncio.timeout(self.request_timeout):
            request = await self.session.<call>(...)
            request.raise_for_status()
    except asyncio.TimeoutError:
        raise TadoConnectionError("Timeout occurred while connecting to Tado.")
    except ClientResponseError:
        await self.check_request_status(request)
>>
    The call exceeds the timeout when nothing comes back or when what comes
    back takes longer than [request_timeout].  [raise_for_status] raises
    for a status of 400 or above, and only then; the response that reaches
    [check_request_status] is the one it has released. *)
Definition attempt (req : Request) : M Response :=
  s <- self ;;
  match session s with
  | None => raise AttributeError
  | Some h =>
      out <- transport h req ;;
      match out with
      | Silent => raise (TadoConnectionError timeout_message)
      | ConnFail latency =>
          if Qltb (inject_Z (request_timeout s)) latency
          then raise (TadoConnectionError timeout_message)
          else raise ClientError
      | Answer latency request =>
          if Qltb (inject_Z (request_timeout s)) latency
          then raise (TadoConnectionError timeout_message)
          else if (400 <=? status request)%Z
               then check_request_status true request
               else ret request
      end
  end.

(** [Tado._refresh_auth]. *)
Definition _refresh_auth : M unit :=
  now <- time_time ;;
  s <- self ;;
  match _token_expiry s with
  | None => raise TypeError
  | Some expiry =>
      if Qltb now (expiry - 30) then ret tt
      else
        let data :=
          [ ("client_id", Some _client_id);
            ("client_secret", Some _client_secret);
            ("grant_type", Some "refresh_token");
            ("scope", Some "home.user");
            ("refresh_token", _refesh_token s) ] in
        request <- attempt (post _token_url data) ;;
        response <- json request ;;
        a <- getitem "access_token" (access_token response) ;;
        assign (set_access_token (Some a)) ;;
        now' <- time_time ;;
        e <- getitem "expires_in" (expires_in response) ;;
        assign (set_token_expiry (Some (now' + e)%Q)) ;;
        r <- getitem "refresh_token" (refresh_token response) ;;
        assign (set_refesh_token (Some r))
  end.

(** [Tado._request]. *)
Definition _request (uri : string) (data : option string)
    (method : HttpMethod) : M string :=
  _refresh_auth ;;
  let url := api_url uri in
  s <- self ;;
  let headers := [("Authorization", "Bearer " ++ fmt (_access_token s))] in
  request <- attempt {| req_method := HttpMethod_value method;
                        req_url := url; req_headers := headers;
                        req_data := None; req_json := data |} ;;
  ret (text request).

(** [Tado.get_me]. *)
Definition get_me : M GetMe :=
  s <- self ;;
  match _me s with
  | None =>
      response <- _request "me" None GET ;;
      me <- decode (GetMe_from_json E) response ;;
      assign (set_me (Some me)) ;;
      ret me
  | Some me => ret me
  end.

(** [f"homes/{self._home_id}/..."]. *)
Definition home_uri (s : Tado) (leaf : string) : string :=
  "homes/" ++ match _home_id s with
              | Some n => str_of_int n
              | None => "None"
              end ++ "/" ++ leaf.

(** [Tado.get_devices]. *)
Definition get_devices : M (list Device) :=
  s <- self ;;
  response <- _request (home_uri s "devices") None GET ;;
  obj <- decode (orjson_loads E) response ;;
  comprehension (Device_from_dict E) obj.

(** [Tado.get_mobile_devices]. *)
Definition get_mobile_devices : M (list MobileDevice) :=
  s <- self ;;
  response <- _request (home_uri s "mobileDevices") None GET ;;
  obj <- decode (orjson_loads E) response ;;
  comprehension (MobileDevice_from_dict E) obj.

(** [Tado.get_zones]. *)
Definition get_zones : M (list Zone) :=
  s <- self ;;
  response <- _request (home_uri s "zones") None GET ;;
  obj <- decode (orjson_loads E) response ;;
  comprehension (Zone_from_dict E) obj.

(** [Tado.get_zone_states]. *)
Definition get_zone_states : M (list Zone) :=
  s <- self ;;
  response <- _request (home_uri s "zoneStates") None GET ;;
  obj <- decode (orjson_loads E) response ;;
  comprehension (Zone_from_dict E) obj.

(** [Tado._login]. *)
Definition _login : M unit :=
  s <- self ;;
  let data :=
    [ ("client_id", Some _client_id);
      ("client_secret", Some _client_secret);
      ("grant_type", Some "password");
      ("scope", Some "home.user");
      ("username", _username s);
      ("password", _password s) ] in
  match session s with
  | None =>
      h <- ClientSession ;;
      assign (set_session (Some h)) ;;
      assign (set_close_session (Some true))
  | Some _ => ret tt
  end ;;
  request <- attempt (post _token_url data) ;;
  match content_type request with
  | None => raise TypeError
  | Some ct =>
      if negb (str_in "application/json" ct) then
        raise (TadoException
                 ("Unexpected response from Tado. Content-Type: " ++ ct
                  ++ ", Response body: " ++ text request))
      else ret tt
  end ;;
  response <- json request ;;
  a <- getitem "access_token" (access_token response) ;;
  assign (set_access_token (Some a)) ;;
  now <- time_time ;;
  e <- getitem "expires_in" (expires_in response) ;;
  assign (set_token_expiry (Some (now + e)%Q)) ;;
  r <- getitem "refresh_token" (refresh_token response) ;;
  assign (set_refesh_token (Some r)) ;;
  me <- get_me ;;
  match homes me with
  | [] => raise IndexError
  | home :: _ => assign (set_home_id (Some (id home)))
  end.

(** [Tado.close]. *)
Definition close : M unit :=
  s <- self ;;
  match session s with
  | None => ret tt
  | Some h =>
      match _close_session s with
      | None => raise AttributeError
      | Some true => ClientSession_close h
      | Some false => ret tt
      end
  end.

(** [Tado.__aenter__] and [Tado.__aexit__]. *)
Definition __aenter__ : M unit := _login.

Definition __aexit__ : M unit := close.

(** [async with tado: body]: the body runs and [__aexit__] is awaited only
    when [__aenter__] has returned; an exception of the body passes through
    [__aexit__], which does not suppress it, and an exception of [__aexit__]
    takes its place. *)
Definition async_with {A} (body : M A) : M A :=
  fun s w =>
    match __aenter__ s w with
    | (Raise e, s1, w1) => (Raise e, s1, w1)
    | (Ok _, s1, w1) =>
        match body s1 w1 with
        | (r, s2, w2) =>
            match __aexit__ s2 w2 with
            | (Ok _, s3, w3) => (r, s3, w3)
            | (Raise e, s3, w3) => (Raise e, s3, w3)
            end
        end
    end.

(** *** Vocabulary that depends on the environment *)

(** Lines 143-146 of [_refresh_auth], which are lines 87-90 of [_login]. *)
Definition store_response (request : Response) : M unit :=
  response <- json request ;;
  a <- getitem "access_token" (access_token response) ;;
  assign (set_access_token (Some a)) ;;
  now <- time_time ;;
  e <- getitem "expires_in" (expires_in response) ;;
  assign (set_token_expiry (Some (now + e)%Q)) ;;
  r <- getitem "refresh_token" (refresh_token response) ;;
  assign (set_refesh_token (Some r)).

(** The n-th transport call was made with [req] through [h], after the
    world [w]. *)
Definition issued (w w' : World) (n : nat) (h : Handle) (req : Request) : Prop :=
  (List.length (sent w) <= n)%nat /\ nth_error (sent w') n = Some (h, req).

(** The parts of [_login]: lines 68-70, the test of lines 81-85, and
    line 93. *)
Definition acquire (s : Tado) (w : World) : Tado * World * Handle :=
  match session s with
  | Some h => (s, w, h)
  | None =>
      (set_close_session (Some true)
         (set_session (Some (OwnHandle (made w))) s),
       make w, OwnHandle (made w))
  end.

Definition check_type (request : Response) : M unit :=
  match content_type request with
  | None => raise TypeError
  | Some ct =>
      if negb (str_in "application/json" ct) then
        raise (TadoException
                 ("Unexpected response from Tado. Content-Type: " ++ ct
                  ++ ", Response body: " ++ text request))
      else ret tt
  end.

Definition pick_home (me : GetMe) : M unit :=
  match homes me with
  | [] => raise IndexError
  | home :: _ => assign (set_home_id (Some (id home)))
  end.

Definition login_tail (request : Response) : M unit :=
  check_type request ;;
  store_response request ;;
  me <- get_me ;;
  pick_home me.

(** The run of [m] from [(s, w)] makes the n-th transport call, and it ends
    with the exception [e]. *)
Definition calls_at {A} (m : M A) (s : Tado) (w : World) (n : nat)
    (h : Handle) (req : Request) : Prop :=
  issued w (snd (m s w)) n h req.

Definition ends_with {A} (m : M A) (s : Tado) (w : World) (e : Exn) : Prop :=
  fst (fst (m s w)) = Raise e.

(** What every coroutine but [close] guarantees of a run from [(s, w)] that
    ends in [(r, s', w')]. *)
Record frame {A} (s : Tado) (w : World) (r : Result A) (s' : Tado)
    (w' : World) : Prop := mkFrame {
  fr_timeout : request_timeout s' = request_timeout s;
  fr_sent : exists new, sent w' = (sent w ++ new)%list;
  fr_abort : forall n h req e,
      issued w w' n h req ->
      verdict (request_timeout s) (server E n req) = Raise e ->
      r = Raise e;
  fr_session : forall h,
      session s = Some h ->
      session s' = Some h /\ made w' = made w
      /\ _close_session s' = _close_session s;
  fr_handle : forall n h req, issued w w' n h req -> session s' = Some h;
  fr_closed : closed w' = closed w
}.

Definition sound_at {A} (s : Tado) (m : M A) : Prop :=
  forall w r s' w', m s w = (r, s', w') -> frame s w r s' w'.

Definition sound {A} (m : M A) : Prop := forall s, sound_at s m.

(** The coroutine leaves the attribute [field] alone. *)
Definition keeps {A T} (field : Tado -> T) (m : M A) : Prop :=
  forall s w r s' w', m s w = (r, s', w') -> field s' = field s.

(** What a caller can do with the object, and a caller that does a list of
    these things one after the other, going on after an exception. *)
Inductive Call : Type :=
| CallLogin
| CallGetMe
| CallGetDevices
| CallGetMobileDevices
| CallGetZones
| CallGetZoneStates
| CallClose.

Definition forget {A} (m : M A) : M unit :=
  fun s w =>
    match m s w with
    | (Ok _, s', w') => (Ok tt, s', w')
    | (Raise e, s', w') => (Raise e, s', w')
    end.

Definition call (c : Call) : M unit :=
  match c with
  | CallLogin => _login
  | CallGetMe => forget get_me
  | CallGetDevices => forget get_devices
  | CallGetMobileDevices => forget get_mobile_devices
  | CallGetZones => forget get_zones
  | CallGetZoneStates => forget get_zone_states
  | CallClose => close
  end.

Fixpoint calls (cs : list Call) (s : Tado) (w : World) : Tado * World :=
  match cs with
  | [] => (s, w)
  | c :: rest =>
      match call c s w with
      | (_, s', w') => calls rest s' w'
      end
  end.

(** The call [n] with request [req] is answered by [resp] within [tmo]. *)
Definition answers (tmo : Z) (n : nat) (req : Request) (resp : Response) : Prop :=
  exists latency,
    server E n req = Answer latency resp /\ ~ (inject_Z tmo < latency)%Q.

(** The server of the end-to-end scenario: a token endpoint that returns
    [{access_token:"A", refresh_token:"R", expires_in:600}] and a [me]
    endpoint that returns a user whose homes are [[{id:42}]]. *)
Record mock_server (tok me : Response) (user : GetMe) : Prop := mkMock {
  mock_token : forall n req, req_url req = _token_url -> answers 10 n req tok;
  mock_me : forall n req, req_url req = api_url "me" -> answers 10 n req me;
  mock_token_status : (200 <= status tok < 300)%Z;
  mock_me_status : (200 <= status me < 300)%Z;
  mock_token_type : exists ct,
      content_type tok = Some ct /\ str_in "application/json" ct = true;
  mock_token_json :
    response_json E tok =
      Some {| access_token := Some "A"; expires_in := Some 600%Q;
              refresh_token := Some "R" |};
  mock_me_json : GetMe_from_json E (text me) = Some user;
  mock_homes : homes user = [ {| id := 42 |} ]
}.

End Session.

(** ** A test double *)

(** The parameters of the double: time stands still at [now] for the first
    [switch] readings of the clock and is [later] from then on; the token
    endpoint answers at once, with the content type [token_type] and a
    lifetime of [lifetime]; the [me] endpoint answers at once from the call
    number [up] on, with a user whose homes are [user_homes]; every other
    call meets [other]. *)
Record Script : Type := mkScript {
  now : Q;
  later : Q;
  switch : nat;
  token_type : string;
  lifetime : Q;
  up : nat;
  user_homes : list Home;
  other : Outcome
}.

Definition token_response (sc : Script) : Response :=
  {| status := 200; content_type := Some (token_type sc);
     text := "token" |}.

Definition me_response : Response :=
  {| status := 200; content_type := Some "application/json";
     text := "me" |}.

Definition double (sc : Script) : @Env unit unit unit unit :=
  {| clock := fun k => if Nat.ltb k (switch sc) then now sc else later sc;
     server := fun n req =>
       if String.eqb (req_url req) _token_url
       then Answer 0 (token_response sc)
       else if String.eqb (req_url req) (api_url "me") && Nat.leb (up sc) n
            then Answer 0 me_response
            else other sc;
     response_json := fun r =>
       if String.eqb (text r) (text (token_response sc))
       then Some {| access_token := Some "A"; expires_in := Some (lifetime sc);
                    refresh_token := Some "R" |}
       else None;
     GetMe_from_json := fun body =>
       if String.eqb body (text me_response)
       then Some {| homes := user_homes sc |}
       else None;
     orjson_loads := fun _ => Some [];
     Device_from_dict := fun _ => Some tt;
     MobileDevice_from_dict := fun _ => Some tt;
     Zone_from_dict := fun _ => Some tt |}.

Definition world0 : World :=
  {| reads := 0; sent := []; made := 0; closed := [] |}.

(** Scripts of the double: a login at 1000 with a lifetime of 300, the clock
    at 1100 or at 1271 afterwards. *)
Definition calm : Script :=
  {| now := 1000; later := 1100; switch := 2;
     token_type := "application/json"; lifetime := 300; up := 0;
     user_homes := [ {| id := 42 |} ]; other := Silent |}.

Definition late : Script :=
  {| now := 1000; later := 1271; switch := 2;
     token_type := "application/json"; lifetime := 300; up := 0;
     user_homes := [ {| id := 42 |} ]; other := Silent |}.

(** The [me] endpoint never answers. *)
Definition stuck : Script :=
  {| now := 1000; later := 1100; switch := 2;
     token_type := "application/json"; lifetime := 300; up := 100;
     user_homes := [ {| id := 42 |} ]; other := Silent |}.

(** The [me] endpoint answers 403. *)
Definition forbidden : Script :=
  {| now := 1000; later := 1100; switch := 2;
     token_type := "application/json"; lifetime := 300; up := 100;
     user_homes := [ {| id := 42 |} ];
     other := Answer 0 {| status := 403; content_type := Some "text/plain";
                          text := "no" |} |}.

(** The endpoints of the home answer 304. *)
Definition unmodified : Script :=
  {| now := 1000; later := 1100; switch := 2;
     token_type := "application/json"; lifetime := 300; up := 0;
     user_homes := [ {| id := 42 |} ];
     other := Answer 0 {| status := 304; content_type := None;
                          text := "cached" |} |}.

(** The token endpoint answers a page of HTML. *)
Definition html : Script :=
  {| now := 1000; later := 1100; switch := 2;
     token_type := "text/html"; lifetime := 300; up := 0;
     user_homes := [ {| id := 42 |} ]; other := Silent |}.

Definition new_object : Tado := __init__ "user" "secret" (ABool false).

(** The object and the world after [_login] on a new object. *)
Definition logged_in (sc : Script) : Tado * World :=
  match _login (double sc) new_object world0 with
  | (_, s, w) => (s, w)
  end.

(** The user has no home. *)
Definition homeless : Script :=
  {| now := 1000; later := 1100; switch := 2;
     token_type := "application/json"; lifetime := 300; up := 0;
     user_homes := []; other := Silent |}.

(** The [me] endpoint does not answer the first time, and the clock is at
    1280 after the login. *)
Definition flaky : Script :=
  {| now := 1000; later := 1280; switch := 2;
     token_type := "application/json"; lifetime := 300; up := 2;
     user_homes := [ {| id := 42 |} ]; other := Silent |}.

(** The object of the end-to-end scenario: it holds the handle [h] and the
    tokens of the mock token endpoint; it knows the user and the home. *)
Definition authenticated (h : Handle) (s : Tado) : Prop :=
  session s = Some h
  /\ request_timeout s = 10%Z
  /\ (exists expiry, _token_expiry s = Some expiry)
  /\ _access_token s = Some "A"
  /\ _refesh_token s = Some "R".

Definition at_home (user : GetMe) (s : Tado) : Prop :=
  _home_id s = Some 42%Z /\ _me s = Some user.

(** The request of [get_devices] in that scenario. *)
Definition devices_request : Request :=
  {| req_method := "GET";
     req_url := "https://my.tado.com/api/v2/homes/42/devices";
     req_headers := [("Authorization", "Bearer A")];
     req_data := None;
     req_json := None |}.

(** The double of the end-to-end scenario. *)
Definition scenario : Script :=
  {| now := 1000; later := 1100; switch := 2;
     token_type := "application/json"; lifetime := 600; up := 0;
     user_homes := [ {| id := 42 |} ]; other := Silent |}.

(** ** Vocabulary of the further properties *)

(** The two kinds of transport call: a [session.post] to the token endpoint,
    with form data and nothing else, and a [session.request] to the API with
    the bearer token as its only header and no form data. *)
Definition token_call (req : Request) : Prop :=
  exists data, req = post _token_url data.

Definition api_call_to (uri : string) (data : option string)
    (method : HttpMethod) (req : Request) : Prop :=
  exists token,
    req = {| req_method := HttpMethod_value method;
             req_url := api_url uri;
             req_headers := [("Authorization", "Bearer " ++ token)];
             req_data := None;
             req_json := data |}.

(** Every run of [m] makes at most [k] transport calls, each with a request
    that satisfies [P]. *)
Definition shape {A} (P : Request -> Prop) (k : nat) (m : M A) : Prop :=
  forall s w r s' w',
    m s w = (r, s', w') ->
    exists new,
      sent w' = (sent w ++ new)%list
      /\ Forall (fun c => P (snd c)) new
      /\ (List.length new <= k)%nat.

(** Every run of [m] from an object on which [I] holds ends with an object
    on which [I] holds. *)
Definition maintains {A} (I : Tado -> Prop) (m : M A) : Prop :=
  forall s w r s' w', I s -> m s w = (r, s', w') -> I s'.

(** The three token attributes are assigned in the order access token,
    expiry, refresh token. *)
Definition tokens_in_order (s : Tado) : Prop :=
  (_token_expiry s <> None -> _access_token s <> None)
  /\ (_refesh_token s <> None -> _token_expiry s <> None).

(** The home identifier is that of the first home of the cached user. *)
Definition home_of_user (s : Tado) : Prop :=
  forall n,
    _home_id s = Some n ->
    exists me home rest,
      _me s = Some me /\ homes me = home :: rest /\ id home = n.

Section Traffic.

Context {Json Device MobileDevice Zone : Type}.
Variable E : @Env Json Device MobileDevice Zone.

(** In every run of [m], a transport call that fails is the last one, and
    the run ends with its exception. *)
Definition tidy {A} (m : M A) : Prop :=
  forall s w r s' w',
    m s w = (r, s', w') ->
    request_timeout s' = request_timeout s
    /\ exists new,
         sent w' = (sent w ++ new)%list
         /\ forall pre h req post e,
              new = (pre ++ (h, req) :: post)%list ->
              verdict (request_timeout s)
                (server E (List.length (sent w) + List.length pre) req)
              = Raise e ->
              post = [] /\ r = Raise e.

(** The environment [E] with another decoder of the token endpoint's
    answer. *)
Definition with_response_json (f : Response -> option TokenJson) : Env :=
  {| clock := clock E;
     server := server E;
     response_json := f;
     GetMe_from_json := GetMe_from_json E;
     orjson_loads := orjson_loads E;
     Device_from_dict := Device_from_dict E;
     MobileDevice_from_dict := MobileDevice_from_dict E;
     Zone_from_dict := Zone_from_dict E |}.

(** The environment [E] with another server. *)
Definition with_server (f : nat -> Request -> Outcome) : Env :=
  {| clock := clock E;
     server := f;
     response_json := response_json E;
     GetMe_from_json := GetMe_from_json E;
     orjson_loads := orjson_loads E;
     Device_from_dict := Device_from_dict E;
     MobileDevice_from_dict := MobileDevice_from_dict E;
     Zone_from_dict := Zone_from_dict E |}.

(** The paths of the API that the class asks for: [me], and the four
    collections of a home, under the home identifier of the object or
    under [None]. *)
Definition api_path (uri : string) : Prop :=
  uri = "me"
  \/ exists home leaf,
       (home = "None" \/ exists n, home = str_of_int n)
       /\ In leaf ["devices"; "mobileDevices"; "zones"; "zoneStates"]
       /\ uri = "homes/" ++ home ++ "/" ++ leaf.

(** The token [t] is the one the object had, [old], or one that the server
    has under the key [field] of its answer to a POST to the token
    endpoint. *)
Definition granted (field : TokenJson -> option string)
    (old t : option string) : Prop :=
  t = old
  \/ exists n req latency request d a,
       req_url req = _token_url
       /\ server E n req = Answer latency request
       /\ response_json E request = Some d
       /\ field d = Some a
       /\ t = Some a.

(** The object [s'] has the credentials of [s], and tokens that are those
    of [s] or that the token endpoint has granted. *)
Definition derived (s s' : Tado) : Prop :=
  _username s' = _username s
  /\ _password s' = _password s
  /\ granted access_token (_access_token s) (_access_token s')
  /\ granted refresh_token (_refesh_token s) (_refesh_token s').

(** The requests that the object [s] may send: the password grant with its
    credentials, a refresh grant with a refresh token it had or was
    granted, and a GET to a path of the API whose only header is the
    bearer token it had or was granted, with no form data and no body. *)
Definition lawful (s : Tado) (req : Request) : Prop :=
  exists s',
    derived s s'
    /\ (req = login_request s'
        \/ req = refresh_request s'
        \/ exists uri, api_path uri /\ req = api_request s' uri None GET).

(** The run from [(s, w)] to [(s', w')] has sent lawful requests only. *)
Definition trace (s : Tado) (w : World) (s' : Tado) (w' : World) : Prop :=
  derived s s'
  /\ exists new,
       sent w' = (sent w ++ new)%list
       /\ Forall (fun c => lawful s (snd c)) new.

End Traffic.

(** The double [late] with a token endpoint that answers the login and is
    silent afterwards. *)
Definition expired : @Env unit unit unit unit :=
  with_server (double late)
    (fun n req => if Nat.ltb n 2 then server (double late) n req else Silent).

(** An answer of the token endpoint that rejects the grant. *)
Definition unauthorized : Response :=
  {| status := 401; content_type := Some "application/json";
     text := "denied" |}.

(** The double [calm] with a token endpoint that rejects every grant. *)
Definition denying : @Env unit unit unit unit :=
  with_server (double calm) (fun _ _ => Answer 0 unauthorized).

(** The double [late] with a token endpoint that answers the login and
    rejects the grants afterwards. *)
Definition revoked : @Env unit unit unit unit :=
  with_server (double late)
    (fun n req =>
       if Nat.ltb n 2 then server (double late) n req
       else Answer 0 unauthorized).

(** The double [calm] with a server that answers the login and gives the
    status [code] afterwards. *)
Definition answering (code : Z) : @Env unit unit unit unit :=
  with_server (double calm)
    (fun n req =>
       if Nat.ltb n 2 then server (double calm) n req
       else Answer 0 {| status := code; content_type := Some "text/plain";
                        text := "no" |}).

(** The double [calm] with a token endpoint whose answer has no
    [Content-Type] header. *)
Definition headerless : @Env unit unit unit unit :=
  with_server (double calm)
    (fun _ _ => Answer 0 {| status := 200; content_type := None;
                            text := "token" |}).

(** The double [calm] with a token endpoint whose answer has no
    [expires_in]. *)
Definition partial : @Env unit unit unit unit :=
  with_response_json (double calm)
    (fun _ => Some {| access_token := Some "A"; expires_in := None;
                      refresh_token := Some "R" |}).

(** A new object to which the caller has assigned a handle. *)
Definition borrowing : Tado := set_session (Some (CallerHandle 0)) new_object.

(** The [me] endpoint cannot be reached. *)
Definition unreachable : Script :=
  {| now := 1000; later := 1100; switch := 2;
     token_type := "application/json"; lifetime := 300; up := 100;
     user_homes := [ {| id := 42 |} ]; other := ConnFail 0 |}.

(** The token endpoint hands out tokens that live for 20. *)
Definition short_lived : Script :=
  {| now := 1000; later := 1100; switch := 2;
     token_type := "application/json"; lifetime := 20; up := 0;
     user_homes := [ {| id := 42 |} ]; other := Silent |}.

(** ** Properties *)

Section Properties.

Context {Json Device MobileDevice Zone : Type}.
Variable E : @Env Json Device MobileDevice Zone.

Lemma Qltb_true (x y : Q) : Qltb x y = true <-> (x < y)%Q.
Proof.
  unfold Qltb. destruct (Qlt_le_dec x y) as [H | H]; split; intro H0;
    try reflexivity; try assumption; try discriminate.
  exfalso. apply (Qle_not_lt _ _ H H0).
Qed.

Lemma Qltb_false (x y : Q) : Qltb x y = false <-> ~ (x < y)%Q.
Proof.
  rewrite <- Qltb_true. destruct (Qltb x y); split; intro H;
    try reflexivity; try discriminate.
  exfalso. apply H. reflexivity.
Qed.

Lemma bind_ok {A B} (m : M A) (k : A -> M B) s w a s' w' :
  m s w = (Ok a, s', w') -> bind m k s w = k a s' w'.
Proof. intro H. unfold bind. rewrite H. reflexivity. Qed.

Lemma bind_raise {A B} (m : M A) (k : A -> M B) s w e s' w' :
  m s w = (Raise e, s', w') -> bind m k s w = (Raise e, s', w').
Proof. intro H. unfold bind. rewrite H. reflexivity. Qed.

(** On a released response the first [await request.text()] ends the
    call. *)
Lemma check_request_status_released {A} (r : Response) s w :
  @check_request_status A true r s w = (Raise connection_closed, s, w).
Proof. reflexivity. Qed.

(** On a response that can be read, the dictionary decides. *)
Lemma check_request_status_eq {A} (r : Response) s w :
  @check_request_status A false r s w = (Raise (status_error r), s, w).
Proof.
  unfold check_request_status, status_error, response_text, bind, ret, raise.
  cbv [dict_in dict_get existsb fst].
  destruct (400 =? status r)%Z eqn:H400; cbv [orb]; [reflexivity |].
  destruct (500 =? status r)%Z eqn:H500.
  - apply Z.eqb_eq in H500. rewrite <- H500. reflexivity.
  - destruct (401 =? status r)%Z; [reflexivity |].
    destruct (403 =? status r)%Z; reflexivity.
Qed.

(** The request block, as one equation. *)
Lemma attempt_eq (req : Request) s w h :
  session s = Some h ->
  attempt E req s w =
    (verdict (request_timeout s) (server E (List.length (sent w)) req),
     s, log h req w).
Proof.
  intro Hs. unfold attempt, bind, self, transport. rewrite Hs.
  unfold verdict.
  destruct (server E (List.length (sent w)) req) as [lat r | lat |];
    try reflexivity.
  - destruct (Qltb (inject_Z (request_timeout s)) lat); [reflexivity |].
    destruct (400 <=? status r)%Z; [| reflexivity].
    apply check_request_status_released.
  - destruct (Qltb (inject_Z (request_timeout s)) lat); reflexivity.
Qed.

(** *** Runs that compose *)

Lemma nth_error_snoc {X} (l : list X) (x y : X) (n : nat) :
  (List.length l <= n)%nat -> nth_error (l ++ [x]) n = Some y ->
  n = List.length l /\ y = x.
Proof.
  intros Hn H.
  assert (Hlt : (n < List.length (l ++ [x]))%nat)
    by (apply nth_error_Some; congruence).
  rewrite length_app in Hlt. simpl in Hlt.
  assert (n = List.length l) by lia. subst n.
  rewrite nth_error_app2, Nat.sub_diag in H by lia.
  simpl in H. inversion H. auto.
Qed.

Lemma not_issued_yet w n h req : ~ issued w w n h req.
Proof.
  intros [Hn H]. apply nth_error_None in Hn. congruence.
Qed.

Lemma frame_silent {A} s w (r : Result A) s' w' :
  request_timeout s' = request_timeout s ->
  sent w' = sent w ->
  (forall h, session s = Some h ->
     session s' = Some h /\ made w' = made w
     /\ _close_session s' = _close_session s) ->
  closed w' = closed w ->
  frame E s w r s' w'.
Proof.
  intros Ht Hs Hh Hcl.
  assert (Hno : forall n h req, ~ issued w w' n h req).
  { intros n h req [Hn H]. rewrite Hs in H.
    apply (not_issued_yet w n h req). split; assumption. }
  constructor; auto.
  - exists []. rewrite app_nil_r. assumption.
  - intros n h req e Hi. destruct (Hno _ _ _ Hi).
  - intros n h req Hi. destruct (Hno _ _ _ Hi).
Qed.

Lemma frame_quiet {A} s w (r : Result A) s' w' :
  request_timeout s' = request_timeout s ->
  sent w' = sent w ->
  session s' = session s ->
  made w' = made w ->
  _close_session s' = _close_session s ->
  closed w' = closed w ->
  frame E s w r s' w'.
Proof.
  intros Ht Hs Hh Hm Hc Hcl. apply frame_silent; auto.
  intros h H. rewrite Hh. auto.
Qed.

Lemma frame_raise {A B} s w e s' w' :
  frame E s w (@Raise A e) s' w' -> frame E s w (@Raise B e) s' w'.
Proof.
  intros [Ht Hs Ha Hh Hu Hc]. constructor; auto.
  intros n h req e' Hi Hv. specialize (Ha n h req e' Hi Hv).
  inversion Ha. reflexivity.
Qed.

Lemma frame_seq {A B} s w (a : A) s1 w1 (r : Result B) s' w' :
  frame E s w (Ok a) s1 w1 -> frame E s1 w1 r s' w' -> frame E s w r s' w'.
Proof.
  intros [Ht1 [n1 Hs1] Ha1 Hh1 Hu1 Hc1] [Ht2 [n2 Hs2] Ha2 Hh2 Hu2 Hc2].
  assert (Hsplit : forall n h req, issued w w' n h req ->
            issued w w1 n h req \/ issued w1 w' n h req).
  { intros n h req [Hn H].
    destruct (Nat.lt_ge_cases n (List.length (sent w1))) as [Hlt | Hge].
    - left. split; [assumption |].
      rewrite Hs2, nth_error_app1 in H by assumption. assumption.
    - right. split; assumption. }
  constructor.
  - congruence.
  - exists (n1 ++ n2)%list. rewrite Hs2, Hs1, app_assoc. reflexivity.
  - intros n h req e Hi Hv. destruct (Hsplit _ _ _ Hi) as [H1 | H2].
    + specialize (Ha1 n h req e H1 Hv). discriminate.
    + apply (Ha2 n h req e H2). rewrite Ht1. assumption.
  - intros h H. destruct (Hh1 h H) as (Hx & Hy & Hz).
    destruct (Hh2 h Hx) as (Hx' & Hy' & Hz'). repeat split; congruence.
  - intros n h req Hi. destruct (Hsplit _ _ _ Hi) as [H1 | H2].
    + apply (Hh2 h). apply (Hu1 n h req H1).
    + apply (Hu2 n h req H2).
  - congruence.
Qed.

Lemma at_bind {A B} s (m : M A) (k : A -> M B) :
  sound_at E s m ->
  (forall a w s1 w1, m s w = (Ok a, s1, w1) -> sound_at E s1 (k a)) ->
  sound_at E s (bind m k).
Proof.
  intros Hm Hk w r s' w' H. unfold bind in H.
  destruct (m s w) as [[[a | e] s1] w1] eqn:Hrun.
  - apply (frame_seq s w a s1 w1); [apply Hm; assumption |].
    apply (Hk a w s1 w1 Hrun). assumption.
  - inversion H; subst. apply (@frame_raise A B).
    apply Hm. assumption.
Qed.

Lemma at_self {B} s (k : Tado -> M B) :
  sound_at E s (k s) -> sound_at E s (bind self k).
Proof. intros Hk w r s' w' H. apply Hk. exact H. Qed.

Lemma at_ret {A} s (a : A) : sound_at E s (ret a).
Proof.
  intros w r s' w' H. inversion H; subst. apply frame_quiet; reflexivity.
Qed.

Lemma at_raise {A} s e : sound_at E s (@raise A e).
Proof.
  intros w r s' w' H. inversion H; subst. apply frame_quiet; reflexivity.
Qed.

Lemma at_assign s (f : Tado -> Tado) :
  request_timeout (f s) = request_timeout s ->
  session (f s) = session s ->
  _close_session (f s) = _close_session s ->
  sound_at E s (assign f).
Proof.
  intros H1 H2 H3 w r s' w' H. inversion H; subst.
  apply frame_quiet; auto.
Qed.

Lemma at_time s : sound_at E s (time_time E).
Proof.
  intros w r s' w' H. inversion H; subst. apply frame_quiet; reflexivity.
Qed.

Lemma at_getitem {A} s key (v : option A) : sound_at E s (getitem key v).
Proof. destruct v; [apply at_ret | apply at_raise]. Qed.

Lemma at_json s request : sound_at E s (json E request).
Proof.
  unfold json. destruct (response_json E request);
    [apply at_ret | apply at_raise].
Qed.

Lemma at_decode {A} s (f : string -> option A) response :
  sound_at E s (decode f response).
Proof.
  unfold decode. destruct (f response); [apply at_ret | apply at_raise].
Qed.

Lemma at_comprehension {A B} (f : A -> option B) obj :
  forall s, sound_at E s (comprehension f obj).
Proof.
  induction obj as [| x rest IH]; intro s; simpl.
  - apply at_ret.
  - destruct (f x); [| apply at_raise].
    apply at_bind; [apply IH |]. intros. apply at_ret.
Qed.

Lemma at_attempt s req : sound_at E s (attempt E req).
Proof.
  intros w r s' w' H.
  destruct (session s) as [h |] eqn:Hs.
  - rewrite (attempt_eq req s w h Hs) in H. inversion H; subst.
    constructor; simpl; auto.
    + exists [(h, req)]. reflexivity.
    + intros n h' req' e [Hn Hi] Hv. simpl in Hi.
      destruct (nth_error_snoc _ _ _ _ Hn Hi) as [-> Heq].
      inversion Heq; subst. assumption.
    + intros n h' req' [Hn Hi]. simpl in Hi.
      destruct (nth_error_snoc _ _ _ _ Hn Hi) as [_ Heq].
      inversion Heq; subst. assumption.
  - unfold attempt, bind, self in H. rewrite Hs in H. inversion H; subst.
    apply frame_quiet; reflexivity.
Qed.

Lemma at_acquire s :
  sound_at E s
    (match session s with
     | None =>
         h <- ClientSession ;;
         assign (set_session (Some h)) ;;
         assign (set_close_session (Some true))
     | Some _ => ret tt
     end).
Proof.
  destruct (session s) eqn:Hs; [apply at_ret |].
  intros w r s' w' H. cbv [bind ClientSession assign] in H.
  inversion H; subst. apply frame_silent; try reflexivity.
  intros h Hh. congruence.
Qed.

Ltac sound_step :=
  match goal with
  | |- sound_at _ _ (bind self _) => apply at_self; cbv beta
  | |- sound_at ?E ?s (bind (match session ?s with _ => _ end) _) =>
      apply at_bind; [apply at_acquire | intros ? ? ? ? ?]
  | |- sound_at _ _ (bind _ _) => apply at_bind; [| intros ? ? ? ? ?]
  | |- sound_at _ _ (ret _) => apply at_ret
  | |- sound_at _ _ (raise _) => apply at_raise
  | |- sound_at _ _ (getitem _ _) => apply at_getitem
  | |- sound_at _ _ (json _ _) => apply at_json
  | |- sound_at _ _ (decode _ _) => apply at_decode
  | |- sound_at _ _ (comprehension _ _) => apply at_comprehension
  | |- sound_at _ _ (time_time _) => apply at_time
  | |- sound_at _ _ (attempt _ _) => apply at_attempt
  | |- sound_at _ _ (assign _) => apply at_assign; reflexivity
  | |- sound_at _ _ (match ?x with _ => _ end) => destruct x eqn:?
  end.

Lemma sound_store_response request : sound E (store_response E request).
Proof. intro s. unfold store_response. repeat sound_step. Qed.

Lemma sound_refresh_auth : sound E (_refresh_auth E).
Proof. intro s. unfold _refresh_auth. cbv zeta. repeat sound_step. Qed.

Lemma sound_request uri data method : sound E (_request E uri data method).
Proof.
  intro s. unfold _request. cbv zeta.
  apply at_bind; [apply sound_refresh_auth | intros _ w s1 w1 _].
  repeat sound_step.
Qed.

Lemma sound_get_me : sound E (get_me E).
Proof.
  intro s. unfold get_me. apply at_self.
  destruct (_me s); [| apply at_bind; [apply sound_request | intros]];
    repeat sound_step.
Qed.

Lemma sound_get_devices : sound E (get_devices E).
Proof.
  intro s. unfold get_devices. apply at_self.
  apply at_bind; [apply sound_request | intros]. repeat sound_step.
Qed.

Lemma sound_get_mobile_devices : sound E (get_mobile_devices E).
Proof.
  intro s. unfold get_mobile_devices. apply at_self.
  apply at_bind; [apply sound_request | intros]. repeat sound_step.
Qed.

Lemma sound_get_zones : sound E (get_zones E).
Proof.
  intro s. unfold get_zones. apply at_self.
  apply at_bind; [apply sound_request | intros]. repeat sound_step.
Qed.

Lemma sound_get_zone_states : sound E (get_zone_states E).
Proof.
  intro s. unfold get_zone_states. apply at_self.
  apply at_bind; [apply sound_request | intros]. repeat sound_step.
Qed.

Lemma sound_login : sound E (_login E).
Proof.
  intro s. unfold _login. cbv zeta.
  repeat first [apply sound_get_me | sound_step].
Qed.

(** *** Attributes a coroutine leaves alone *)

Lemma keeps_bind {A B T} (field : Tado -> T) (m : M A) (k : A -> M B) :
  keeps field m -> (forall a, keeps field (k a)) -> keeps field (bind m k).
Proof.
  intros Hm Hk s w r s' w' H. unfold bind in H.
  destruct (m s w) as [[[a | e] s1] w1] eqn:Hrun.
  - rewrite (Hk a _ _ _ _ _ H). apply (Hm _ _ _ _ _ Hrun).
  - inversion H; subst. apply (Hm _ _ _ _ _ Hrun).
Qed.

Lemma keeps_self {B T} (field : Tado -> T) (k : Tado -> M B) :
  (forall s, keeps field (k s)) -> keeps field (bind self k).
Proof. intros Hk s w r s' w' H. apply (Hk s _ _ _ _ _ H). Qed.

Lemma keeps_still {A T} (field : Tado -> T) (m : M A) :
  (forall s w, snd (fst (m s w)) = s) -> keeps field m.
Proof.
  intros Hm s w r s' w' H. specialize (Hm s w). rewrite H in Hm.
  simpl in Hm. subst. reflexivity.
Qed.

Lemma keeps_assign {T} (field : Tado -> T) (f : Tado -> Tado) :
  (forall s, field (f s) = field s) -> keeps field (assign f).
Proof. intros Hf s w r s' w' H. inversion H; subst. apply Hf. Qed.

Lemma keeps_getitem {A T} (field : Tado -> T) key (v : option A) :
  keeps field (getitem key v).
Proof. apply keeps_still. intros s w. destruct v; reflexivity. Qed.

Lemma keeps_json {T} (field : Tado -> T) request :
  keeps field (json E request).
Proof.
  apply keeps_still. intros s w. unfold json.
  destruct (response_json E request); reflexivity.
Qed.

Lemma keeps_decode {A T} (field : Tado -> T) (f : string -> option A) x :
  keeps field (decode f x).
Proof.
  apply keeps_still. intros s w. unfold decode. destruct (f x); reflexivity.
Qed.

Lemma keeps_comprehension {A B T} (field : Tado -> T) (f : A -> option B) obj :
  keeps field (comprehension f obj).
Proof.
  induction obj as [| x rest IH]; simpl.
  - apply keeps_still. reflexivity.
  - destruct (f x); [| apply keeps_still; reflexivity].
    apply keeps_bind; [exact IH |]. intro. apply keeps_still. reflexivity.
Qed.

Lemma keeps_attempt {T} (field : Tado -> T) req : keeps field (attempt E req).
Proof.
  apply keeps_still. intros s w.
  destruct (session s) as [h |] eqn:Hs.
  - rewrite (attempt_eq req s w h Hs). reflexivity.
  - unfold attempt, bind, self. rewrite Hs. reflexivity.
Qed.

Ltac keeps_step :=
  match goal with
  | |- keeps _ (bind self _) => apply keeps_self; intro
  | |- keeps _ (bind _ _) => apply keeps_bind; [| intro]
  | |- keeps _ (ret _) => apply keeps_still; reflexivity
  | |- keeps _ (raise _) => apply keeps_still; reflexivity
  | |- keeps _ (time_time _) => apply keeps_still; reflexivity
  | |- keeps _ (getitem _ _) => apply keeps_getitem
  | |- keeps _ (json _ _) => apply keeps_json
  | |- keeps _ (decode _ _) => apply keeps_decode
  | |- keeps _ (comprehension _ _) => apply keeps_comprehension
  | |- keeps _ (attempt _ _) => apply keeps_attempt
  | |- keeps _ (assign _) => apply keeps_assign; reflexivity
  | |- keeps _ (match ?x with _ => _ end) => destruct x eqn:?
  end.

(** The refresh touches the three token attributes only. *)
Lemma refresh_keeps {T} (field : Tado -> T) :
  (forall v s, field (set_access_token v s) = field s) ->
  (forall v s, field (set_token_expiry v s) = field s) ->
  (forall v s, field (set_refesh_token v s) = field s) ->
  keeps field (_refresh_auth E).
Proof.
  intros H1 H2 H3. unfold _refresh_auth. cbv zeta.
  repeat first [apply keeps_assign; intro; auto | keeps_step].
Qed.

Lemma request_keeps {T} (field : Tado -> T) uri data method :
  (forall v s, field (set_access_token v s) = field s) ->
  (forall v s, field (set_token_expiry v s) = field s) ->
  (forall v s, field (set_refesh_token v s) = field s) ->
  keeps field (_request E uri data method).
Proof.
  intros H1 H2 H3. unfold _request. cbv zeta.
  apply keeps_bind; [apply refresh_keeps; assumption | intro].
  repeat keeps_step.
Qed.

Lemma get_me_keeps_home : keeps _home_id (get_me E).
Proof.
  unfold get_me.
  repeat first [apply request_keeps; reflexivity | keeps_step].
Qed.

(** *** The refresh, as equations *)

Lemma store_response_ok request a e r s w :
  response_json E request =
    Some {| access_token := Some a; expires_in := Some e;
            refresh_token := Some r |} ->
  store_response E request s w =
    (Ok tt, store_tokens a (clock E (reads w) + e)%Q r s, tick w).
Proof. intro H. unfold store_response, json. rewrite H. reflexivity. Qed.

Lemma store_response_sent request s w :
  sent (snd (store_response E request s w)) = sent w.
Proof.
  unfold store_response, json.
  destruct (response_json E request) as [[[a |] [e |] [r |]] |];
    reflexivity.
Qed.

Lemma refresh_auth_eq s w :
  _refresh_auth E s w =
    match _token_expiry s with
    | None => (Raise TypeError, s, tick w)
    | Some expiry =>
        if Qltb (clock E (reads w)) (expiry - 30) then (Ok tt, s, tick w)
        else
          match session s with
          | None => (Raise AttributeError, s, tick w)
          | Some h =>
              match verdict (request_timeout s)
                      (server E (List.length (sent w)) (refresh_request s)) with
              | Raise e => (Raise e, s, log h (refresh_request s) (tick w))
              | Ok request =>
                  store_response E request s
                    (log h (refresh_request s) (tick w))
              end
          end
    end.
Proof.
  cbv [_refresh_auth bind time_time self].
  destruct (_token_expiry s) as [expiry |]; [| reflexivity].
  destruct (Qltb (clock E (reads w)) (expiry - 30)); [reflexivity |].
  destruct (session s) as [h |] eqn:Hs.
  - rewrite (attempt_eq _ s (tick w) h Hs). simpl sent.
    fold (refresh_request s).
    destruct (verdict _ _); reflexivity.
  - cbv [attempt bind self]. rewrite Hs. reflexivity.
Qed.

(** C4, as the code has it: on a new object the expiry is [None], and the
    refresh computes [None - 30]; it raises the [TypeError] of that
    subtraction after having read the clock, and so does every request,
    instead of an error that says that the object is not authenticated. *)
Theorem refresh_before_login_is_a_type_error :
  forall username password debug w uri data method,
    let s := __init__ username password debug in
    _refresh_auth E s w = (Raise TypeError, s, tick w)
    /\ _request E uri data method s w = (Raise TypeError, s, tick w).
Proof.
  intros. split.
  - rewrite refresh_auth_eq. reflexivity.
  - unfold _request. apply bind_raise. rewrite refresh_auth_eq. reflexivity.
Qed.

(** C1: with the expiry set, the refresh does nothing, and calls nothing,
    when the clock is more than 30 before the expiry; otherwise it makes
    exactly one transport call, the refresh grant, and when that call is
    answered in time with a status below 400 and the three keys, it stores
    the new tokens with the expiry at the new reading of the clock plus
    [expires_in].  With an expiry of T+300, T+100 is in the first case and
    T+271 in the second. *)
Theorem refresh_policy :
  forall s w h expiry,
    session s = Some h ->
    _token_expiry s = Some expiry ->
    let now := clock E (reads w) in
    let grant := refresh_request s in
    (now < expiry - 30 -> _refresh_auth E s w = (Ok tt, s, tick w))%Q
    /\ (~ (now < expiry - 30)%Q ->
        sent (snd (_refresh_auth E s w)) = (sent w ++ [(h, grant)])%list
        /\ forall latency request a e r,
             server E (List.length (sent w)) grant = Answer latency request ->
             ~ (inject_Z (request_timeout s) < latency)%Q ->
             (status request < 400)%Z ->
             response_json E request =
               Some {| access_token := Some a; expires_in := Some e;
                       refresh_token := Some r |} ->
             _refresh_auth E s w =
               (Ok tt,
                store_tokens a (clock E (S (reads w)) + e)%Q r s,
                tick (log h grant (tick w))))
    /\ (forall T : Q,
          expiry = (T + 300)%Q ->
          (now = (T + 100)%Q -> _refresh_auth E s w = (Ok tt, s, tick w))
          /\ (now = (T + 271)%Q ->
              sent (snd (_refresh_auth E s w)) = (sent w ++ [(h, grant)])%list)).
Proof.
  intros s w h expiry Hs He now grant.
  assert (Hfresh : (now < expiry - 30)%Q ->
                   _refresh_auth E s w = (Ok tt, s, tick w)).
  { intro H. rewrite refresh_auth_eq, He.
    apply Qltb_true in H. fold now. rewrite H. reflexivity. }
  assert (Hstale : ~ (now < expiry - 30)%Q ->
            _refresh_auth E s w =
              match verdict (request_timeout s)
                      (server E (List.length (sent w)) grant) with
              | Raise e => (Raise e, s, log h grant (tick w))
              | Ok request => store_response E request s (log h grant (tick w))
              end).
  { intro H. rewrite refresh_auth_eq, He, Hs.
    apply Qltb_false in H. fold now. rewrite H. reflexivity. }
  assert (Hone : ~ (now < expiry - 30)%Q ->
            sent (snd (_refresh_auth E s w)) = (sent w ++ [(h, grant)])%list).
  { intro H. rewrite (Hstale H).
    destruct (verdict _ _) as [request | e]; [| reflexivity].
    rewrite store_response_sent. reflexivity. }
  split; [exact Hfresh |]. split.
  - intro H. split; [exact (Hone H) |].
    intros latency request a e r Hsrv Hlat Hst Hjson.
    rewrite (Hstale H), Hsrv. unfold verdict.
    apply Qltb_false in Hlat. rewrite Hlat.
    assert (Hst' : (400 <=? status request)%Z = false)
      by (apply Z.leb_gt; assumption).
    rewrite Hst'. apply store_response_ok. assumption.
  - intros T HT. split; intro Hnow.
    + apply Hfresh. rewrite Hnow, HT. lra.
    + apply Hone. rewrite Hnow, HT. lra.
Qed.

(** *** The login, as equations *)

Lemma login_eq s w :
  _login E s w =
    match acquire s w with
    | (s1, w1, h) =>
        match verdict (request_timeout s)
                (server E (List.length (sent w)) (login_request s)) with
        | Raise e => (Raise e, s1, log h (login_request s) w1)
        | Ok request => login_tail E request s1 (log h (login_request s) w1)
        end
    end.
Proof.
  assert (Htail : forall request s1 w1,
    (match content_type request with
     | Some ct =>
         if negb (str_in "application/json" ct)
         then raise (TadoException
                       ("Unexpected response from Tado. Content-Type: " ++ ct
                        ++ ", Response body: " ++ text request))
         else ret tt
     | None => raise TypeError
     end ;;
     response <- json E request ;;
     a <- getitem "access_token" (access_token response) ;;
     assign (set_access_token (Some a)) ;;
     now <- time_time E ;;
     e <- getitem "expires_in" (expires_in response) ;;
     assign (set_token_expiry (Some (now + e)%Q)) ;;
     r <- getitem "refresh_token" (refresh_token response) ;;
     assign (set_refesh_token (Some r)) ;;
     me <- get_me E ;;
     match homes me with
     | [] => raise IndexError
     | home :: _ => assign (set_home_id (Some (id home)))
     end) s1 w1 = login_tail E request s1 w1).
  { intros request s1 w1.
    cbv [login_tail check_type store_response pick_home bind json].
    destruct (content_type request) as [ct |]; [| reflexivity].
    destruct (negb (str_in "application/json" ct)); [reflexivity |].
    destruct (response_json E request) as [[[a |] [e |] [r |]] |];
      reflexivity. }
  unfold _login. cbv zeta. unfold bind at 1. unfold self at 1.
  unfold bind at 1. unfold acquire.
  destruct (session s) as [h |] eqn:Hs.
  - unfold ret at 1. unfold bind at 1.
    rewrite (attempt_eq _ s w h Hs). fold (login_request s).
    destruct (verdict _ _) as [request | e]; [| reflexivity].
    apply Htail.
  - unfold bind at 1. unfold ClientSession at 1.
    unfold bind at 1. unfold assign at 1. unfold assign at 1.
    unfold bind at 1.
    rewrite (attempt_eq _
               (set_close_session (Some true)
                  (set_session (Some (OwnHandle (made w))) s))
               (make w) (OwnHandle (made w)) eq_refl).
    simpl sent. simpl request_timeout. fold (login_request s).
    destruct (verdict _ _) as [request | e]; [| reflexivity].
    apply Htail.
Qed.

(** *** How a request site ends *)

Lemma verdict_exceeds tmo out :
  exceeds tmo out -> verdict tmo out = Raise (TadoConnectionError timeout_message).
Proof.
  destruct out as [latency r | latency |]; simpl; intro H;
    try reflexivity; apply Qltb_true in H; rewrite H; reflexivity.
Qed.

Lemma verdict_rejected tmo latency request :
  ~ (inject_Z tmo < latency)%Q -> (400 <= status request)%Z ->
  verdict tmo (Answer latency request) = Raise connection_closed.
Proof.
  intros Hl Hs. simpl. apply Qltb_false in Hl. rewrite Hl.
  apply Z.leb_le in Hs. rewrite Hs. reflexivity.
Qed.

Lemma verdict_accepted tmo latency request :
  ~ (inject_Z tmo < latency)%Q -> (status request < 400)%Z ->
  verdict tmo (Answer latency request) = Ok request.
Proof.
  intros Hl Hs. simpl. apply Qltb_false in Hl. rewrite Hl.
  apply Z.leb_gt in Hs. rewrite Hs. reflexivity.
Qed.

Lemma failure_verdict tmo out e :
  failure tmo out e <-> verdict tmo out = Raise e.
Proof.
  split.
  - intros [[Hx He] | [(latency & r & Ho & Hl & Hs & He) | (latency & Ho & Hl & He)]];
      subst.
    + apply verdict_exceeds. assumption.
    + apply verdict_rejected; assumption.
    + simpl. apply Qltb_false in Hl. rewrite Hl. reflexivity.
  - unfold failure.
    destruct out as [latency r | latency |]; simpl.
    + destruct (Qltb (inject_Z tmo) latency) eqn:Hl.
      * intro H. inversion H. left. split; [| reflexivity].
        apply Qltb_true. assumption.
      * destruct (400 <=? status r)%Z eqn:Hs; [| discriminate].
        intro H. inversion H. right. left. exists latency, r.
        repeat split; [apply Qltb_false; assumption |].
        apply Z.leb_le. assumption.
    + destruct (Qltb (inject_Z tmo) latency) eqn:Hl; intro H; inversion H.
      * left. split; [| reflexivity]. apply Qltb_true. assumption.
      * right. right. exists latency.
        repeat split. apply Qltb_false. assumption.
    + intro H. inversion H. left. split; [exact I | reflexivity].
Qed.

Lemma sound_aborts {A} (m : M A) :
  sound E m ->
  forall s w n h req e,
    calls_at m s w n h req ->
    verdict (request_timeout s) (server E n req) = Raise e ->
    ends_with m s w e.
Proof.
  intros Hm s w n h req e Hc Hv. unfold calls_at, ends_with in *.
  destruct (m s w) as [[r s'] w'] eqn:Hrun. simpl in *.
  destruct (Hm s w r s' w' Hrun) as [_ _ Ha _ _ _].
  apply (Ha n h req e Hc Hv).
Qed.

(** C3: at each of the three request sites, a transport call that exceeds
    the request timeout of the object ends the coroutine with
    [TadoConnectionError]. *)
Theorem timeout_is_connection_error :
  forall s w n h req,
    exceeds (request_timeout s) (server E n req) ->
    let e := TadoConnectionError timeout_message in
    (calls_at (_login E) s w n h req -> ends_with (_login E) s w e)
    /\ (calls_at (_refresh_auth E) s w n h req ->
        ends_with (_refresh_auth E) s w e)
    /\ (forall uri data method,
          calls_at (_request E uri data method) s w n h req ->
          ends_with (_request E uri data method) s w e).
Proof.
  intros s w n h req Hx e. apply verdict_exceeds in Hx.
  repeat split; intros.
  - apply (sound_aborts _ sound_login s w n h req); assumption.
  - apply (sound_aborts _ sound_refresh_auth s w n h req); assumption.
  - apply (sound_aborts _ (sound_request uri data method) s w n h req);
      assumption.
Qed.

(** At each of the three request sites, a response that comes in time with
    a status of 400 or above ends the coroutine with the library's
    [ClientConnectionError]: the response was released before
    [check_request_status] reads its body. *)
Lemma rejected_status_closes s w n h req latency request :
  server E n req = Answer latency request ->
  ~ (inject_Z (request_timeout s) < latency)%Q ->
  (400 <= status request)%Z ->
  (calls_at (_login E) s w n h req ->
   ends_with (_login E) s w connection_closed)
  /\ (calls_at (_refresh_auth E) s w n h req ->
      ends_with (_refresh_auth E) s w connection_closed)
  /\ (forall uri data method,
        calls_at (_request E uri data method) s w n h req ->
        ends_with (_request E uri data method) s w connection_closed).
Proof.
  intros Hsrv Hl Hst.
  assert (Hv : verdict (request_timeout s) (server E n req)
               = Raise connection_closed)
    by (rewrite Hsrv; apply verdict_rejected; assumption).
  split; [| split]; intros.
  - apply (sound_aborts _ sound_login s w n h req); assumption.
  - apply (sound_aborts _ sound_refresh_auth s w n h req); assumption.
  - apply (sound_aborts _ (sound_request uri data method) s w n h req);
      assumption.
Qed.

(** A response that comes in time with a status below 400, 2xx or not,
    passes the block of the site as it is. *)
Lemma accepted_status_passes s w h req latency request :
  session s = Some h ->
  server E (List.length (sent w)) req = Answer latency request ->
  ~ (inject_Z (request_timeout s) < latency)%Q ->
  (status request < 400)%Z ->
  attempt E req s w = (Ok request, s, log h req w).
Proof.
  intros Hs Hsrv Hl Hst.
  rewrite (attempt_eq req s w h Hs), Hsrv.
  rewrite verdict_accepted by assumption. reflexivity.
Qed.

(** What [check_request_status] raises for a response whose body can be
    read: the error of the status, with the body in its message. *)
Lemma status_error_cases (request : Response) :
  (status request = 400%Z ->
   status_error request
   = TadoBadRequestError
       ("Bad request to Tado. Response body: " ++ text request))
  /\ (status request = 401%Z ->
      status_error request
      = TadoAuthenticationError
          ("Authentication error connecting to Tado. Response body: "
           ++ text request))
  /\ (status request = 403%Z ->
      status_error request
      = TadoForbiddenError
          ("Forbidden error connecting to Tado. Response body: "
           ++ text request))
  /\ (status request <> 400%Z -> status request <> 401%Z ->
      status request <> 403%Z ->
      status_error request
      = TadoException
          ("Error " ++ str_of_int (status request)
           ++ " connecting to Tado. Response body: " ++ text request)).
Proof.
  unfold status_error. repeat split.
  - intro H. rewrite H. reflexivity.
  - intro H. rewrite H. reflexivity.
  - intro H. rewrite H. reflexivity.
  - intros H0 H1 H3.
    destruct (Z.eqb_spec 400 (status request)); [congruence |].
    destruct (Z.eqb_spec 401 (status request)); [congruence |].
    destruct (Z.eqb_spec 403 (status request)); [congruence |].
    reflexivity.
Qed.

(** Without a content type the test of [_login] is [... not in None]: a
    [TypeError]. *)
Lemma login_without_content_type s w latency request :
  server E (List.length (sent w)) (login_request s) = Answer latency request ->
  ~ (inject_Z (request_timeout s) < latency)%Q ->
  (status request < 400)%Z ->
  content_type request = None ->
  ends_with (_login E) s w TypeError.
Proof.
  intros Hsrv Hl Hst Hct. unfold ends_with.
  rewrite login_eq, Hsrv, verdict_accepted by assumption.
  unfold acquire.
  destruct (session s); cbv [login_tail check_type bind]; rewrite Hct;
    reflexivity.
Qed.

(** With the header: when the token endpoint answers the login in time with
    a status in 200..299 and a content type that does not contain
    [application/json], [_login] ends with a [TadoException] whose message
    carries that content type and the body of the response, and no token is
    stored. *)
Lemma login_rejects_other_content_types :
  forall s w latency request ct,
    server E (List.length (sent w)) (login_request s) = Answer latency request ->
    ~ (inject_Z (request_timeout s) < latency)%Q ->
    (200 <= status request < 300)%Z ->
    content_type request = Some ct ->
    str_in "application/json" ct = false ->
    ends_with (_login E) s w
      (TadoException
         ("Unexpected response from Tado. Content-Type: " ++ ct
          ++ ", Response body: " ++ text request))
    /\ _access_token (snd (fst (_login E s w))) = _access_token s
    /\ _token_expiry (snd (fst (_login E s w))) = _token_expiry s
    /\ _refesh_token (snd (fst (_login E s w))) = _refesh_token s.
Proof.
  intros s w latency request ct Hsrv Hl Hst Hct Hin.
  unfold ends_with. rewrite login_eq, Hsrv.
  rewrite verdict_accepted by (assumption || lia).
  unfold acquire.
  destruct (session s) as [h |];
    cbv [login_tail check_type bind]; rewrite Hct, Hin; simpl;
    repeat split; reflexivity.
Qed.

(** *** The authenticated request and [get_me], as equations *)

Lemma store_response_keeps {T} (field : Tado -> T) request :
  (forall v s, field (set_access_token v s) = field s) ->
  (forall v s, field (set_token_expiry v s) = field s) ->
  (forall v s, field (set_refesh_token v s) = field s) ->
  keeps field (store_response E request).
Proof.
  intros H1 H2 H3. unfold store_response.
  repeat first [apply keeps_assign; intro; auto | keeps_step].
Qed.

(** The refresh makes no transport call or one, the refresh grant. *)
Lemma refresh_sent s w r s0 w0 :
  _refresh_auth E s w = (r, s0, w0) ->
  sent w0 = sent w
  \/ exists h, session s = Some h
               /\ sent w0 = (sent w ++ [(h, refresh_request s)])%list.
Proof.
  intro H. rewrite refresh_auth_eq in H.
  destruct (_token_expiry s) as [expiry |];
    [| inversion H; subst; left; reflexivity].
  destruct (Qltb (clock E (reads w)) (expiry - 30));
    [inversion H; subst; left; reflexivity |].
  destruct (session s) as [h |];
    [| inversion H; subst; left; reflexivity].
  right. exists h. split; [reflexivity |].
  destruct (verdict _ _) as [request | e].
  - pose proof (store_response_sent request s
                  (log h (refresh_request s) (tick w))) as Hs.
    rewrite H in Hs. exact Hs.
  - inversion H; subst. reflexivity.
Qed.

Lemma request_eq uri data method s w :
  _request E uri data method s w =
    match _refresh_auth E s w with
    | (Raise e, s0, w0) => (Raise e, s0, w0)
    | (Ok _, s0, w0) =>
        match session s0 with
        | None => (Raise AttributeError, s0, w0)
        | Some h =>
            (match verdict (request_timeout s0)
                     (server E (List.length (sent w0))
                        (api_request s0 uri data method)) with
             | Ok request => Ok (text request)
             | Raise e => Raise e
             end, s0, log h (api_request s0 uri data method) w0)
        end
    end.
Proof.
  unfold _request. cbv zeta. unfold bind at 1.
  destruct (_refresh_auth E s w) as [[[[] | e] s0] w0]; [| reflexivity].
  unfold bind at 1. unfold self at 1. unfold bind at 1.
  destruct (session s0) as [h |] eqn:Hs.
  - rewrite (attempt_eq _ s0 w0 h Hs). fold (api_request s0 uri data method).
    destruct (verdict _ _); reflexivity.
  - cbv [attempt bind self]. rewrite Hs. reflexivity.
Qed.

(** A request that returns has made one transport call, after the refresh
    grant if the token had to be refreshed. *)
Lemma request_sent uri data method s w body s1 w1 :
  _request E uri data method s w = (Ok body, s1, w1) ->
  exists h,
    session s1 = Some h
    /\ (sent w1 = (sent w ++ [(h, api_request s1 uri data method)])%list
        \/ sent w1 = (sent w ++ [(h, refresh_request s);
                                 (h, api_request s1 uri data method)])%list).
Proof.
  intro H. rewrite request_eq in H.
  destruct (_refresh_auth E s w) as [[[[] | e] s0] w0] eqn:Hr;
    [| discriminate].
  pose proof (refresh_keeps session (fun _ _ => eq_refl) (fun _ _ => eq_refl) (fun _ _ => eq_refl)
                s w _ _ _ Hr) as Hsess.
  destruct (session s0) as [h |] eqn:Hs; [| discriminate].
  inversion H; subst. exists h. split; [assumption |]. simpl.
  destruct (refresh_sent _ _ _ _ _ Hr) as [Hq | [h' [Hh' Hq]]]; rewrite Hq.
  - left. reflexivity.
  - right. assert (h' = h) by congruence. subst h'.
    rewrite <- app_assoc. reflexivity.
Qed.

Lemma get_me_cases s w r s1 w1 :
  get_me E s w = (r, s1, w1) ->
  _home_id s1 = _home_id s
  /\ match r with
     | Ok me => _me s1 = Some me
     | Raise _ => _me s1 = _me s
     end.
Proof.
  intro H. split; [apply (get_me_keeps_home _ _ _ _ _ H) |].
  unfold get_me in H. unfold bind at 1 in H. unfold self at 1 in H.
  destruct (_me s) as [me |] eqn:Hme.
  - inversion H; subst. assumption.
  - unfold bind at 1 in H.
    destruct (_request E "me" None GET s w) as [[[body | e] s0] w0] eqn:Hr.
    + pose proof (request_keeps _me "me" None GET (fun _ _ => eq_refl) (fun _ _ => eq_refl)
                    (fun _ _ => eq_refl) s w _ _ _ Hr) as Hk.
      cbv [decode bind assign ret raise] in H.
      destruct (GetMe_from_json E body) as [me |];
        inversion H; subst; [reflexivity | congruence].
    + pose proof (request_keeps _me "me" None GET (fun _ _ => eq_refl) (fun _ _ => eq_refl)
                    (fun _ _ => eq_refl) s w _ _ _ Hr) as Hk.
      inversion H; subst. congruence.
Qed.

(** C7, amended: a call of [get_me] that returns leaves its result in [_me];
    every later call returns that same object and touches neither the object
    nor the world, so it makes no transport call.  The first call makes one
    request to [me], after one refresh grant when the token had to be
    refreshed: the two calls make one request to [me] in total, and at most
    two transport calls. *)
Theorem get_me_is_memoized :
  forall s w me s1 w1,
    get_me E s w = (Ok me, s1, w1) ->
    _me s1 = Some me
    /\ get_me E s1 w1 = (Ok me, s1, w1)
    /\ (forall k, calls E (repeat CallGetMe k) s1 w1 = (s1, w1))
    /\ (_me s = None ->
        exists h,
          session s1 = Some h
          /\ (sent w1 = (sent w ++ [(h, api_request s1 "me" None GET)])%list
              \/ sent w1 = (sent w ++ [(h, refresh_request s);
                                       (h, api_request s1 "me" None GET)])%list))
    /\ (_me s <> None -> s1 = s /\ w1 = w).
Proof.
  intros s w me s1 w1 H.
  assert (Hme : _me s1 = Some me)
    by (apply (proj2 (get_me_cases s w (Ok me) s1 w1 H))).
  assert (Hagain : get_me E s1 w1 = (Ok me, s1, w1)).
  { unfold get_me. unfold bind at 1. unfold self at 1. rewrite Hme.
    reflexivity. }
  split; [exact Hme |]. split; [exact Hagain |]. split; [| split].
  - induction k as [| k IH]; [reflexivity |].
    simpl. unfold forget. rewrite Hagain. exact IH.
  - intro Hnone. unfold get_me in H. unfold bind at 1 in H.
    unfold self at 1 in H. rewrite Hnone in H. unfold bind at 1 in H.
    destruct (_request E "me" None GET s w) as [[[body | e] s0] w0] eqn:Hr;
      [| discriminate].
    destruct (request_sent _ _ _ _ _ _ _ _ Hr) as [h [Hs Hsent]].
    cbv [decode bind assign ret raise] in H.
    destruct (GetMe_from_json E body) as [me' |]; [| discriminate].
    inversion H; subst. exists h. split; assumption.
  - intro Hsome. unfold get_me in H. unfold bind at 1 in H.
    unfold self at 1 in H.
    destruct (_me s) as [me' |]; [| congruence].
    inversion H; subst. auto.
Qed.

(** *** A login for a user without a home *)

Lemma pick_after_me s w r s' w' :
  (me <- get_me E ;; pick_home me) s w = (r, s', w') ->
  (forall me, _me s' = Some me -> homes me = []) ->
  (exists e, r = Raise e)
  /\ _home_id s' = _home_id s
  /\ (_me s = None -> _me s' <> None -> r = Raise IndexError).
Proof.
  intros H Hempty. unfold bind in H.
  destruct (get_me E s w) as [[[me | e] s1] w1] eqn:Hg;
    destruct (get_me_cases _ _ _ _ _ Hg) as [Hhome Hme].
  - unfold pick_home in H. destruct (homes me) as [| home rest] eqn:Hh.
    + inversion H; subst. repeat split; eauto.
    + inversion H; subst. specialize (Hempty me Hme). congruence.
  - inversion H; subst. repeat split; eauto. intros H1 H2. congruence.
Qed.

Lemma after_prefix {A} (m : M A) (k : A -> M unit) :
  keeps _home_id m -> keeps _me m ->
  (forall a s w r s' w',
      k a s w = (r, s', w') ->
      (forall me, _me s' = Some me -> homes me = []) ->
      (exists e, r = Raise e)
      /\ _home_id s' = _home_id s
      /\ (_me s = None -> _me s' <> None -> r = Raise IndexError)) ->
  forall s w r s' w',
    bind m k s w = (r, s', w') ->
    (forall me, _me s' = Some me -> homes me = []) ->
    (exists e, r = Raise e)
    /\ _home_id s' = _home_id s
    /\ (_me s = None -> _me s' <> None -> r = Raise IndexError).
Proof.
  intros Hh Hm Hk s w r s' w' H Hempty. unfold bind in H.
  destruct (m s w) as [[[a | e] s1] w1] eqn:Hrun.
  - destruct (Hk a s1 w1 r s' w' H Hempty) as (H1 & H2 & H3).
    rewrite (Hh _ _ _ _ _ Hrun), (Hm _ _ _ _ _ Hrun) in *. auto.
  - inversion H; subst.
    split; [eexists; reflexivity |].
    split; [apply (Hh _ _ _ _ _ Hrun) |].
    intros H1 H2. rewrite (Hm _ _ _ _ _ Hrun) in H2. congruence.
Qed.

(** C8, amended: when the user that the login leaves in [_me] has no home,
    [_login] raises and leaves the home identifier as it was; when the user
    was fetched by this login the exception is the [IndexError] of
    [homes[0]], which is not a [TadoException], and otherwise it is the
    exception of the step that failed before. *)
Theorem login_without_homes :
  forall s w,
    let r := fst (fst (_login E s w)) in
    let s' := snd (fst (_login E s w)) in
    (forall me, _me s' = Some me -> homes me = []) ->
    (exists e, r = Raise e)
    /\ _home_id s' = _home_id s
    /\ (_me s = None -> _me s' <> None -> r = Raise IndexError).
Proof.
  intros s w r s'. subst r s'.
  destruct (_login E s w) as [[r s'] w'] eqn:H. simpl.
  intro Hempty. rewrite login_eq in H.
  assert (Hacq : _home_id (fst (fst (acquire s w))) = _home_id s
                 /\ _me (fst (fst (acquire s w))) = _me s)
    by (unfold acquire; destruct (session s); split; reflexivity).
  destruct (acquire s w) as [[s1 w1] h]. simpl in Hacq.
  destruct Hacq as [Hh Hm].
  destruct (verdict _ _) as [request | e].
  - rewrite <- Hh, <- Hm. revert H Hempty.
    unfold login_tail.
    apply after_prefix.
    { unfold check_type. repeat keeps_step. }
    { unfold check_type. repeat keeps_step. }
    intros _. apply after_prefix.
    { apply store_response_keeps; reflexivity. }
    { apply store_response_keeps; reflexivity. }
    intros _. apply pick_after_me.
  - inversion H; subst. repeat split; eauto. intros H1 H2. congruence.
Qed.

(** *** The handle, over any sequence of calls *)

Lemma sound_login_tail request : sound E (login_tail E request).
Proof.
  intro s. unfold login_tail, check_type, pick_home.
  repeat first [apply sound_store_response | apply sound_get_me | sound_step].
Qed.

Lemma sound_forget {A} (m : M A) : sound E m -> sound E (forget m).
Proof.
  intros Hm s w r s' w' H. unfold forget in H.
  destruct (m s w) as [[[a | e] s1] w1] eqn:Hrun; inversion H; subst.
  - destruct (Hm _ _ _ _ _ Hrun) as [H1 H2 H3 H4 H5 H6].
    constructor; auto.
    intros n h req e Hi Hv. specialize (H3 n h req e Hi Hv). discriminate.
  - apply (@frame_raise A unit). apply (Hm _ _ _ _ _ Hrun).
Qed.

Lemma close_eq s w :
  close s w =
    match session s with
    | None => (Ok tt, s, w)
    | Some h =>
        match _close_session s with
        | None => (Raise AttributeError, s, w)
        | Some true => (Ok tt, s, shut h w)
        | Some false => (Ok tt, s, w)
        end
    end.
Proof.
  unfold close, bind, self.
  destruct (session s); [| reflexivity].
  destruct (_close_session s) as [[|] |]; reflexivity.
Qed.

Lemma sound_call c : c <> CallClose -> sound E (call E c).
Proof.
  destruct c; intro H; simpl; try congruence;
    try apply sound_forget;
    auto using sound_login, sound_get_me, sound_get_devices,
      sound_get_mobile_devices, sound_get_zones, sound_get_zone_states.
Qed.

Lemma call_step c s w r s1 w1 :
  call E c s w = (r, s1, w1) ->
  request_timeout s1 = request_timeout s
  /\ (exists new, sent w1 = (sent w ++ new)%list)
  /\ (forall h, session s = Some h ->
        session s1 = Some h /\ made w1 = made w
        /\ _close_session s1 = _close_session s)
  /\ (forall n h req, issued w w1 n h req -> session s1 = Some h).
Proof.
  intro H.
  assert (Hc : c = CallClose \/ c <> CallClose)
    by (destruct c; (left; reflexivity) || (right; discriminate)).
  destruct Hc as [-> | Hc].
  - simpl in H. rewrite close_eq in H.
    assert (Hq : s1 = s /\ sent w1 = sent w /\ made w1 = made w).
    { destruct (session s); [| inversion H; auto].
      destruct (_close_session s) as [[|] |]; inversion H; auto. }
    destruct Hq as (-> & Hs & Hm). repeat split; auto.
    + exists []. rewrite app_nil_r. assumption.
    + intros n h req [Hn Hi]. rewrite Hs in Hi.
      destruct (not_issued_yet w n h req). split; assumption.
  - destruct (sound_call c Hc _ _ _ _ _ H) as [H1 H2 H3 H4 H5 H6]. auto.
Qed.

Lemma calls_through_handle cs :
  forall s w h,
    session s = Some h ->
    let run := calls E cs s w in
    session (fst run) = Some h
    /\ made (snd run) = made w
    /\ _close_session (fst run) = _close_session s
    /\ (exists new, sent (snd run) = (sent w ++ new)%list)
    /\ (forall n h' req, issued w (snd run) n h' req -> h' = h).
Proof.
  induction cs as [| c rest IH]; intros s w h Hs; simpl.
  - repeat split; auto.
    + exists []. rewrite app_nil_r. reflexivity.
    + intros n h' req Hi. destruct (not_issued_yet _ _ _ _ Hi).
  - destruct (call E c s w) as [[r s1] w1] eqn:Hc.
    destruct (call_step _ _ _ _ _ _ Hc) as (_ & [n1 Hn1] & Hh & Hu).
    destruct (Hh h Hs) as (Hs1 & Hm1 & Hc1).
    destruct (IH s1 w1 h Hs1) as (Ha & Hb & Hd & [n2 Hn2] & He).
    repeat split; try congruence.
    + exists (n1 ++ n2)%list. rewrite Hn2, Hn1, app_assoc. reflexivity.
    + intros n h' req [Hn Hi].
      destruct (Nat.lt_ge_cases n (List.length (sent w1))) as [Hlt | Hge].
      * rewrite Hn2, nth_error_app1 in Hi by assumption.
        assert (Hx : session s1 = Some h')
          by (apply (Hu n h' req); split; assumption).
        congruence.
      * apply (He n h' req). split; assumption.
Qed.

Lemma calls_keep_timeout cs :
  forall s w, request_timeout (fst (calls E cs s w)) = request_timeout s.
Proof.
  induction cs as [| c rest IH]; intros s w; simpl; [reflexivity |].
  destruct (call E c s w) as [[r s1] w1] eqn:Hc.
  rewrite IH. apply (call_step _ _ _ _ _ _ Hc).
Qed.

(** C10, amended: the constructor takes the two credentials and [debug],
    nothing else, so that neither a timeout nor a session handle can be
    given to it; on the object it returns the request timeout is 10 and no
    handle is set.  Both are attributes a caller can assign: a handle
    assigned to [session] is the one every transport call of every later
    call goes through, and no handle is made; an assigned request timeout is
    kept. *)
Theorem constructor_defaults :
  forall username password extra kwargs t,
    construct username password extra kwargs = Ok t ->
    (exists debug, t = __init__ username password debug)
    /\ request_timeout t = 10%Z
    /\ session t = None
    /\ (List.length extra <= 1)%nat
    /\ (forall key v, In (key, v) kwargs -> key = "debug")
    /\ (forall h cs w,
          let run := calls E cs (set_session (Some h) t) w in
          session (fst run) = Some h
          /\ made (snd run) = made w
          /\ forall n h' req, issued w (snd run) n h' req -> h' = h)
    /\ (forall v cs w,
          request_timeout (fst (calls E cs (set_request_timeout v t) w)) = v).
Proof.
  intros username password extra kwargs t H.
  assert (Hinit : exists debug, t = __init__ username password debug).
  { unfold construct in H.
    destruct extra as [| d [| d' extra]]; try discriminate.
    - destruct kwargs as [| [key v] [| kv kwargs]]; try discriminate.
      + inversion H. eauto.
      + destruct (String.eqb key "debug"); inversion H. eauto.
    - destruct kwargs; inversion H. eauto. }
  split; [exact Hinit |]. destruct Hinit as [debug ->].
  split; [reflexivity |]. split; [reflexivity |].
  split; [| split; [| split]].
  - unfold construct in H.
    destruct extra as [| d [| d' extra]]; try discriminate; simpl; lia.
  - intros key v Hin. unfold construct in H.
    destruct extra as [| d [| d' extra]]; try discriminate.
    + destruct kwargs as [| [key' v'] [| kv kwargs]]; try discriminate.
      * destruct Hin.
      * destruct (String.eqb_spec key' "debug"); [| discriminate].
        destruct Hin as [Hin | []]. inversion Hin. congruence.
    + destruct kwargs; [destruct Hin | discriminate].
  - intros h cs w run.
    destruct (calls_through_handle cs
                (set_session (Some h) (__init__ username password debug))
                w h eq_refl) as (Ha & Hb & _ & _ & He).
    auto.
  - intros v cs w. rewrite calls_keep_timeout. reflexivity.
Qed.

(** *** The handle and the scope *)

(** When the login fails on an object without a handle, the scope is not
    entered, [__aexit__] does not run, and the handle that the login made
    stays open. *)
Lemma failed_enter_leaves_handle_open {A} (body : M A) s w e s' w' :
  session s = None ->
  __aenter__ E s w = (Raise e, s', w') ->
  async_with E body s w = (Raise e, s', w')
  /\ session s' = Some (OwnHandle (made w))
  /\ made w' = S (made w)
  /\ closed w' = closed w.
Proof.
  intros Hs H. split; [unfold async_with; rewrite H; reflexivity |].
  unfold __aenter__ in H. rewrite login_eq in H. unfold acquire in H.
  rewrite Hs in H.
  destruct (verdict _ _) as [request | e0].
  - destruct (sound_login_tail request _ _ _ _ _ H)
      as [_ _ _ Hh _ Hc].
    destruct (Hh (OwnHandle (made w)) eq_refl) as (H1 & H2 & _).
    repeat split; assumption.
  - inversion H; subst. repeat split; reflexivity.
Qed.

(** When the login succeeds on an object without a handle, the handle that
    the login made is closed when the scope is left, however the body
    ends. *)
Lemma own_handle_closed_on_exit {A} (body : M A) s w s1 w1 r s2 w2 :
  sound E body ->
  session s = None ->
  __aenter__ E s w = (Ok tt, s1, w1) ->
  body s1 w1 = (r, s2, w2) ->
  async_with E body s w = (r, s2, shut (OwnHandle (made w)) w2)
  /\ closed w2 = closed w.
Proof.
  intros Hb Hs H Hrun.
  assert (Hin : session s1 = Some (OwnHandle (made w))
                /\ _close_session s1 = Some true /\ closed w1 = closed w).
  { unfold __aenter__ in H. rewrite login_eq in H. unfold acquire in H.
    rewrite Hs in H.
    destruct (verdict _ _) as [request | e0]; [| discriminate].
    destruct (sound_login_tail request _ _ _ _ _ H)
      as [_ _ _ Hh _ Hc].
    destruct (Hh (OwnHandle (made w)) eq_refl) as (H1 & _ & H3).
    repeat split; assumption. }
  destruct Hin as (H1 & H2 & H3).
  destruct (Hb _ _ _ _ _ Hrun) as [_ _ _ Hh _ Hc].
  destruct (Hh _ H1) as (H4 & _ & H5).
  split; [| congruence].
  unfold async_with. rewrite H, Hrun. unfold __aexit__.
  rewrite close_eq, H4, H5, H2. reflexivity.
Qed.

(** A handle that the caller assigned before the login is never closed:
    [_close_session] does not exist then, and [close] raises. *)
Lemma caller_handle_never_closed cs :
  forall s w h,
    session s = Some h -> _close_session s = None ->
    closed (snd (calls E cs s w)) = closed w.
Proof.
  induction cs as [| c rest IH]; intros s w h Hs Hc; simpl; [reflexivity |].
  destruct (call E c s w) as [[r s1] w1] eqn:Hrun.
  destruct (call_step _ _ _ _ _ _ Hrun) as (_ & _ & Hh & _).
  destruct (Hh h Hs) as (Hs1 & _ & Hc1).
  rewrite (IH s1 w1 h Hs1) by congruence.
  assert (Hx : c = CallClose \/ c <> CallClose)
    by (destruct c; (left; reflexivity) || (right; discriminate)).
  destruct Hx as [-> | Hx].
  - simpl in Hrun. rewrite close_eq, Hs, Hc in Hrun.
    inversion Hrun. reflexivity.
  - apply (sound_call c Hx _ _ _ _ _ Hrun).
Qed.

(** *** The end-to-end scenario *)

Section EndToEnd.

Variables tok me : Response.
Variable user : GetMe.
Hypothesis mock : mock_server E tok me user.

Lemma mock_token_verdict n req :
  req_url req = _token_url -> verdict 10 (server E n req) = Ok tok.
Proof.
  intro H. destruct (mock_token E _ _ _ mock n req H) as [latency [Hs Hl]].
  rewrite Hs. apply verdict_accepted; [assumption |].
  pose proof (mock_token_status E _ _ _ mock). lia.
Qed.

Lemma mock_me_verdict n req :
  req_url req = api_url "me" -> verdict 10 (server E n req) = Ok me.
Proof.
  intro H. destruct (mock_me E _ _ _ mock n req H) as [latency [Hs Hl]].
  rewrite Hs. apply verdict_accepted; [assumption |].
  pose proof (mock_me_status E _ _ _ mock). lia.
Qed.

Lemma mock_store s w :
  store_response E tok s w =
    (Ok tt, store_tokens "A" (clock E (reads w) + 600)%Q "R" s, tick w).
Proof. apply store_response_ok. apply (mock_token_json E _ _ _ mock). Qed.

Lemma authenticated_store h s expiry :
  session s = Some h -> request_timeout s = 10%Z ->
  authenticated h (store_tokens "A" expiry "R" s).
Proof.
  intros H1 H2. unfold authenticated. simpl. repeat split; eauto.
Qed.

Lemma mock_refresh h s w :
  authenticated h s ->
  exists s0 w0,
    _refresh_auth E s w = (Ok tt, s0, w0)
    /\ authenticated h s0
    /\ _home_id s0 = _home_id s
    /\ _me s0 = _me s
    /\ (sent w0 = sent w
        \/ sent w0 = (sent w ++ [(h, refresh_request s)])%list).
Proof.
  intros Ha. pose proof Ha as (Hs & Ht & [expiry He] & Hat & Hrt).
  rewrite refresh_auth_eq, He.
  destruct (Qltb (clock E (reads w)) (expiry - 30)).
  - exists s, (tick w).
    split; [reflexivity |]. split; [assumption |]. auto.
  - rewrite Hs, Ht, mock_token_verdict by reflexivity.
    rewrite mock_store. eexists. eexists. split; [reflexivity |].
    split; [apply authenticated_store; assumption |].
    repeat split. right. reflexivity.
Qed.

Lemma mock_request h uri data method s w :
  authenticated h s ->
  exists s0 w0,
    authenticated h s0
    /\ _home_id s0 = _home_id s
    /\ _me s0 = _me s
    /\ (sent w0 = sent w
        \/ sent w0 = (sent w ++ [(h, refresh_request s)])%list)
    /\ _request E uri data method s w =
         (match verdict 10
                  (server E (List.length (sent w0))
                     (api_request s0 uri data method)) with
          | Ok request => Ok (text request)
          | Raise e => Raise e
          end, s0, log h (api_request s0 uri data method) w0).
Proof.
  intro Ha. destruct (mock_refresh h s w Ha) as (s0 & w0 & Hr & Ha0 & H).
  exists s0, w0. split; [assumption |].
  destruct H as (H1 & H2 & H3). repeat split; try assumption.
  rewrite request_eq, Hr.
  destruct Ha0 as (Hs & Ht & _). rewrite Hs, Ht. reflexivity.
Qed.

Lemma decode_still {A} (f : string -> option A) x s w :
  exists r, decode f x s w = (r, s, w).
Proof. unfold decode. destruct (f x); eexists; reflexivity. Qed.

Lemma comprehension_still {A B} (f : A -> option B) obj s w :
  exists r, comprehension f obj s w = (r, s, w).
Proof.
  induction obj as [| x rest IH]; simpl; [eexists; reflexivity |].
  destruct (f x); [| eexists; reflexivity].
  destruct IH as [[ys | e] IH]; unfold bind; rewrite IH;
    eexists; reflexivity.
Qed.

(** What the four accessors of the home have in common. *)
Lemma mock_fetch {A B} (loads : string -> option (list A))
    (from_dict : A -> option B) h uri s w :
  authenticated h s ->
  exists r s0 w0,
    (response <- _request E uri None GET ;;
     obj <- decode loads response ;;
     comprehension from_dict obj) s w = (r, s0, w0)
    /\ authenticated h s0
    /\ _home_id s0 = _home_id s
    /\ _me s0 = _me s
    /\ (sent w0 = (sent w ++ [(h, api_request s0 uri None GET)])%list
        \/ sent w0 = (sent w ++ [(h, refresh_request s);
                                 (h, api_request s0 uri None GET)])%list).
Proof.
  intro Ha.
  destruct (mock_request h uri None GET s w Ha)
    as (s0 & w0 & Ha0 & Hh & Hm & Hsent & Hr).
  assert (Hshape :
    sent (log h (api_request s0 uri None GET) w0)
      = (sent w ++ [(h, api_request s0 uri None GET)])%list
    \/ sent (log h (api_request s0 uri None GET) w0)
      = (sent w ++ [(h, refresh_request s);
                    (h, api_request s0 uri None GET)])%list).
  { simpl. destruct Hsent as [-> | ->]; [left; reflexivity |].
    right. rewrite <- app_assoc. reflexivity. }
  unfold bind at 1. rewrite Hr.
  destruct (verdict 10 _) as [request | e].
  - unfold bind at 1.
    destruct (decode_still loads (text request) s0
                (log h (api_request s0 uri None GET) w0)) as [[obj | e] Hd];
      rewrite Hd.
    + destruct (comprehension_still from_dict obj s0
                  (log h (api_request s0 uri None GET) w0)) as [r Hc].
      rewrite Hc. eauto 10.
    + eauto 10.
  - eauto 10.
Qed.

Lemma mock_login s w :
  request_timeout s = 10%Z ->
  _me s = None \/ _me s = Some user ->
  exists s' w',
    _login E s w = (Ok tt, s', w')
    /\ authenticated (snd (acquire s w)) s'
    /\ at_home user s'.
Proof.
  intros Ht Hme. rewrite login_eq.
  assert (Hacq : session (fst (fst (acquire s w))) = Some (snd (acquire s w))
                 /\ request_timeout (fst (fst (acquire s w))) = 10%Z
                 /\ _me (fst (fst (acquire s w))) = _me s)
    by (unfold acquire; destruct (session s) eqn:Hs0; simpl;
        repeat split; auto).
  destruct (acquire s w) as [[s1 w1] h]. simpl in Hacq. simpl snd.
  destruct Hacq as (Hs1 & Ht1 & Hm1).
  rewrite Ht, mock_token_verdict by reflexivity.
  unfold login_tail.
  destruct (mock_token_type E _ _ _ mock) as [ct [Hct Hin]].
  erewrite bind_ok
    by (unfold check_type; rewrite Hct, Hin; reflexivity).
  erewrite bind_ok by apply mock_store.
  set (w2 := tick (log h (login_request s) w1)).
  set (s2 := store_tokens "A" _ "R" s1).
  assert (Ha2 : authenticated h s2)
    by (apply authenticated_store; assumption).
  assert (Hpick : forall s3 w3,
            authenticated h s3 -> _me s3 = Some user ->
            exists s' w',
              pick_home user s3 w3 = (Ok tt, s', w')
              /\ authenticated h s' /\ at_home user s').
  { intros s3 w3 Ha3 Hm3. unfold pick_home.
    rewrite (mock_homes E _ _ _ mock).
    eexists. eexists. split; [reflexivity |].
    split; [exact Ha3 | split; [reflexivity | exact Hm3]]. }
  destruct Hme as [Hnone | Hsome].
  - assert (Hm2 : _me s2 = None) by (unfold s2; simpl; congruence).
    destruct (mock_request h "me" None GET s2 w2 Ha2)
      as (s0 & w0 & Ha0 & _ & Hm0 & _ & Hr).
    rewrite mock_me_verdict in Hr by reflexivity.
    assert (Hget : get_me E s2 w2 =
              (Ok user, set_me (Some user) s0,
               log h (api_request s0 "me" None GET) w0)).
    { unfold get_me. unfold bind at 1. unfold self at 1. rewrite Hm2.
      erewrite bind_ok by exact Hr.
      unfold decode. rewrite (mock_me_json E _ _ _ mock). reflexivity. }
    erewrite bind_ok by exact Hget.
    apply Hpick; [exact Ha0 | reflexivity].
  - assert (Hm2 : _me s2 = Some user) by (unfold s2; simpl; congruence).
    assert (Hget : get_me E s2 w2 = (Ok user, s2, w2)).
    { unfold get_me. unfold bind at 1. unfold self at 1. rewrite Hm2.
      reflexivity. }
    erewrite bind_ok by exact Hget.
    apply Hpick; assumption.
Qed.

Lemma mock_call c h s w :
  authenticated h s -> at_home user s ->
  authenticated h (snd (fst (call E c s w)))
  /\ at_home user (snd (fst (call E c s w))).
Proof.
  intros Ha [Hh Hm].
  assert (Hfetch : forall A B (loads : string -> option (list A))
                     (from_dict : A -> option B) uri,
    let m := (response <- _request E uri None GET ;;
              obj <- decode loads response ;;
              comprehension from_dict obj) in
    authenticated h (snd (fst (forget m s w)))
    /\ at_home user (snd (fst (forget m s w)))).
  { intros A B loads from_dict uri m.
    destruct (mock_fetch loads from_dict h uri s w Ha)
      as (r & s0 & w0 & Hrun & Ha0 & Hh0 & Hm0 & _).
    unfold forget. fold m in Hrun. rewrite Hrun.
    assert (Hhome : at_home user s0) by (split; congruence).
    destruct r; simpl; split; assumption. }
  destruct c; simpl.
  - destruct (mock_login s w (proj1 (proj2 Ha)) (or_intror Hm))
      as (s' & w' & Hrun & Ha' & Hh').
    rewrite Hrun. simpl.
    assert (Hacq : snd (acquire s w) = h)
      by (unfold acquire; rewrite (proj1 Ha); reflexivity).
    rewrite Hacq in Ha'. split; assumption.
  - assert (Hget : get_me E s w = (Ok user, s, w)).
    { unfold get_me. unfold bind at 1. unfold self at 1. rewrite Hm.
      reflexivity. }
    unfold forget. rewrite Hget. simpl.
    split; [assumption | split; assumption].
  - exact (Hfetch _ _ (orjson_loads E) (Device_from_dict E)
             (home_uri s "devices")).
  - exact (Hfetch _ _ (orjson_loads E) (MobileDevice_from_dict E)
             (home_uri s "mobileDevices")).
  - exact (Hfetch _ _ (orjson_loads E) (Zone_from_dict E)
             (home_uri s "zones")).
  - exact (Hfetch _ _ (orjson_loads E) (Zone_from_dict E)
             (home_uri s "zoneStates")).
  - rewrite close_eq.
    destruct (session s); [| simpl; split; [assumption | split; assumption]].
    destruct (_close_session s) as [[|] |]; simpl;
      (split; [assumption | split; assumption]).
Qed.

Lemma mock_calls cs :
  forall h s w,
    authenticated h s -> at_home user s ->
    authenticated h (fst (calls E cs s w))
    /\ at_home user (fst (calls E cs s w)).
Proof.
  induction cs as [| c rest IH]; intros h s w Ha Hh; simpl.
  - split; assumption.
  - destruct (mock_call c h s w Ha Hh) as [Ha1 Hh1].
    destruct (call E c s w) as [[r s1] w1]. simpl in *.
    apply IH; assumption.
Qed.

Lemma mock_get_devices h s w :
  authenticated h s -> at_home user s ->
  sent (snd (get_devices E s w)) = (sent w ++ [(h, devices_request)])%list
  \/ sent (snd (get_devices E s w))
     = (sent w ++ [(h, refresh_request s); (h, devices_request)])%list.
Proof.
  intros Ha [Hh Hm].
  destruct (mock_fetch (orjson_loads E) (Device_from_dict E) h
              (home_uri s "devices") s w Ha)
    as (r & s0 & w0 & Hrun & Ha0 & _ & _ & Hsent).
  assert (Hg : get_devices E s w = (r, s0, w0)) by exact Hrun.
  rewrite Hg. simpl.
  assert (Hreq : api_request s0 (home_uri s "devices") None GET
                 = devices_request).
  { unfold api_request, home_uri. rewrite Hh.
    destruct Ha0 as (_ & _ & _ & Hat & _). rewrite Hat. reflexivity. }
  rewrite Hreq in Hsent. exact Hsent.
Qed.

End EndToEnd.

(** C6: with a token endpoint that returns the tokens A and R with a
    lifetime of 600 and a [me] endpoint that returns a user whose homes are
    [[{id:42}]], the login of a new object returns, the home identifier of
    the object is 42, and after any further calls on the object every
    [get_devices] makes its request to [homes/42/devices] with the token A,
    after a refresh grant when the token had to be refreshed, and makes no
    other transport call. *)
Theorem end_to_end :
  forall tok me user username password debug w,
    mock_server E tok me user ->
    let s0 := __init__ username password debug in
    let s1 := snd (fst (_login E s0 w)) in
    let w1 := snd (_login E s0 w) in
    fst (fst (_login E s0 w)) = Ok tt
    /\ _home_id s1 = Some 42%Z
    /\ forall cs,
         ~ In CallClose cs ->
         let s2 := fst (calls E cs s1 w1) in
         let w2 := snd (calls E cs s1 w1) in
         let w3 := snd (get_devices E s2 w2) in
         _home_id s2 = Some 42%Z
         /\ exists h,
              session s2 = Some h
              /\ (sent w3 = (sent w2 ++ [(h, devices_request)])%list
                  \/ sent w3 = (sent w2 ++ [(h, refresh_request s2);
                                            (h, devices_request)])%list).
Proof.
  intros tok me user username password debug w Hmock s0 s1 w1.
  destruct (mock_login tok me user Hmock s0 w eq_refl (or_introl eq_refl))
    as (s' & w' & Hrun & Ha & Hh).
  subst s1 w1. rewrite Hrun. simpl.
  split; [reflexivity |]. split; [apply Hh |].
  intros cs _.
  destruct (mock_calls tok me user Hmock cs _ s' w' Ha Hh) as [Ha2 Hh2].
  split; [apply Hh2 |].
  eexists. split; [apply Ha2 |].
  apply (mock_get_devices tok me user Hmock _ _ _ Ha2 Hh2).
Qed.

(** *** The traffic of a run *)

Lemma shape_still {A} P k (m : M A) :
  (forall s w, sent (snd (m s w)) = sent w) -> shape P k m.
Proof.
  intros H s w r s' w' Hrun. exists [].
  specialize (H s w). rewrite Hrun in H. simpl in H.
  rewrite app_nil_r. repeat split; auto. simpl. lia.
Qed.

Lemma shape_bind {A B} P k1 k2 (m : M A) (k : A -> M B) :
  shape P k1 m -> (forall a, shape P k2 (k a)) ->
  shape P (k1 + k2) (bind m k).
Proof.
  intros Hm Hk s w r s' w' H. unfold bind in H.
  destruct (m s w) as [[[a | e] s1] w1] eqn:Hrun;
    destruct (Hm _ _ _ _ _ Hrun) as (n1 & H1 & F1 & L1).
  - destruct (Hk a _ _ _ _ _ H) as (n2 & H2 & F2 & L2).
    exists (n1 ++ n2)%list. rewrite H2, H1, app_assoc.
    repeat split; [apply Forall_app; auto | rewrite length_app; lia].
  - inversion H; subst. exists n1. repeat split; auto. lia.
Qed.

Lemma shape_self {B} P k (f : Tado -> M B) :
  (forall s, shape P k (f s)) -> shape P k (bind self f).
Proof. intros H s w r s' w' Hrun. apply (H s _ _ _ _ _ Hrun). Qed.

Lemma shape_attempt P req : P req -> shape P 1 (attempt E req).
Proof.
  intros HP s w r s' w' H.
  destruct (session s) as [h |] eqn:Hs.
  - rewrite (attempt_eq req s w h Hs) in H. inversion H; subst.
    exists [(h, req)]. repeat split; auto.
  - unfold attempt, bind, self in H. rewrite Hs in H. inversion H; subst.
    exists []. rewrite app_nil_r. repeat split; auto.
Qed.

Lemma shape_getitem {A} P k key (v : option A) : shape P k (getitem key v).
Proof. apply shape_still. intros s w. destruct v; reflexivity. Qed.

Lemma shape_json P k request : shape P k (json E request).
Proof.
  apply shape_still. intros s w. unfold json.
  destruct (response_json E request); reflexivity.
Qed.

Lemma shape_decode {A} P k (f : string -> option A) x :
  shape P k (decode f x).
Proof.
  apply shape_still. intros s w.
  destruct (decode_still f x s w) as [r H]. rewrite H. reflexivity.
Qed.

Lemma shape_comprehension {A B} P k (f : A -> option B) obj :
  shape P k (comprehension f obj).
Proof.
  apply shape_still. intros s w.
  destruct (comprehension_still f obj s w) as [r H]. rewrite H. reflexivity.
Qed.

Ltac shape_step :=
  match goal with
  | |- shape _ _ (bind self _) => apply shape_self; intro
  | |- shape ?P (S ?n) (bind (attempt _ _) _) =>
      apply (shape_bind P 1 n); [apply shape_attempt | intro]
  | |- shape ?P ?n (bind _ _) => apply (shape_bind P 0 n); [| intro]
  | |- shape _ _ (getitem _ _) => apply shape_getitem
  | |- shape _ _ (json _ _) => apply shape_json
  | |- shape _ _ (decode _ _) => apply shape_decode
  | |- shape _ _ (comprehension _ _) => apply shape_comprehension
  | |- shape _ _ (match ?x with _ => _ end) => destruct x
  | |- shape _ _ _ => apply shape_still; reflexivity
  end.

Section Shapes.

Variable P : Request -> Prop.
Hypothesis token_ok : forall req, token_call req -> P req.

Lemma shape_store_response request : shape P 0 (store_response E request).
Proof. unfold store_response. repeat shape_step. Qed.

Lemma shape_refresh_auth : shape P 1 (_refresh_auth E).
Proof.
  unfold _refresh_auth. cbv zeta. repeat shape_step.
  apply token_ok. eexists. reflexivity.
Qed.

Lemma shape_request uri data method :
  (forall req, api_call_to uri data method req -> P req) ->
  shape P 2 (_request E uri data method).
Proof.
  intro api_ok. unfold _request. cbv zeta.
  apply (shape_bind P 1 1); [apply shape_refresh_auth | intro].
  repeat shape_step. apply api_ok. eexists. reflexivity.
Qed.

Lemma shape_get_me :
  (forall req, api_call_to "me" None GET req -> P req) ->
  shape P 2 (get_me E).
Proof.
  intro api_ok. unfold get_me. apply shape_self. intro s.
  destruct (_me s); [apply shape_still; reflexivity |].
  apply (shape_bind P 2 0); [apply shape_request; assumption | intro].
  repeat shape_step.
Qed.

(** What the four accessors of the home have in common. *)
Lemma shape_fetch {A B} (loads : string -> option (list A))
    (from_dict : A -> option B) uri :
  (forall req, api_call_to uri None GET req -> P req) ->
  shape P 2
    (response <- _request E uri None GET ;;
     obj <- decode loads response ;;
     comprehension from_dict obj).
Proof.
  intro api_ok.
  apply (shape_bind P 2 0); [apply shape_request; assumption | intro].
  repeat shape_step.
Qed.

Lemma shape_login :
  (forall req, api_call_to "me" None GET req -> P req) ->
  shape P 3 (_login E).
Proof.
  intro api_ok. unfold _login. cbv zeta.
  apply shape_self. intro s.
  apply (shape_bind P 0 3); [destruct (session s); repeat shape_step | intro].
  apply (shape_bind P 1 2);
    [apply shape_attempt; apply token_ok; eexists; reflexivity | intro].
  repeat
    match goal with
    | |- shape _ 2 (bind (get_me _) _) =>
        apply (shape_bind P 2 0); [apply shape_get_me; assumption | intro]
    | |- _ => shape_step
    end.
Qed.

End Shapes.

Lemma shape_close P k : shape P k close.
Proof.
  apply shape_still. intros s w. rewrite close_eq.
  destruct (session s); [| reflexivity].
  destruct (_close_session s) as [[|] |]; reflexivity.
Qed.

(** X2: a refresh makes at most one transport call; a request, [get_me] and
    each accessor of the home at most two; a login at most three; [close]
    none. *)
Theorem transport_calls_are_bounded :
  forall s w,
    let grows (k : nat) (w' : World) :=
      (List.length (sent w') <= List.length (sent w) + k)%nat in
    grows 1%nat (snd (_refresh_auth E s w))
    /\ (forall uri data method,
          grows 2%nat (snd (_request E uri data method s w)))
    /\ grows 2%nat (snd (get_me E s w))
    /\ grows 2%nat (snd (get_devices E s w))
    /\ grows 2%nat (snd (get_mobile_devices E s w))
    /\ grows 2%nat (snd (get_zones E s w))
    /\ grows 2%nat (snd (get_zone_states E s w))
    /\ grows 3%nat (snd (_login E s w))
    /\ grows 0%nat (snd (close s w)).
Proof.
  intros s w grows.
  assert (Hg : forall A k (m : M A),
            shape (fun _ => True) k m -> grows k (snd (m s w))).
  { intros A k m H. destruct (m s w) as [[r s'] w'] eqn:Hrun.
    destruct (H _ _ _ _ _ Hrun) as (new & H1 & _ & H3).
    unfold grows. simpl. rewrite H1, length_app. lia. }
  assert (Hacc : forall A B (loads : string -> option (list A))
                   (from_dict : A -> option B) (leaf : string),
            shape (fun _ => True) 2
              (s <- self ;;
               response <- _request E (home_uri s leaf) None GET ;;
               obj <- decode loads response ;;
               comprehension from_dict obj)).
  { intros. apply shape_self. intro. apply shape_fetch; auto. }
  repeat split; try intros uri data method; apply Hg.
  - apply shape_refresh_auth; auto.
  - apply shape_request; auto.
  - apply shape_get_me; auto.
  - apply (Hacc _ _ (orjson_loads E) (Device_from_dict E) "devices").
  - apply (Hacc _ _ (orjson_loads E) (MobileDevice_from_dict E)
             "mobileDevices").
  - apply (Hacc _ _ (orjson_loads E) (Zone_from_dict E) "zones").
  - apply (Hacc _ _ (orjson_loads E) (Zone_from_dict E) "zoneStates").
  - apply shape_login; auto.
  - apply shape_close.
Qed.

(** *** Nothing after a call that fails *)

Lemma tidy_still {A} (m : M A) :
  (forall s w, sent (snd (m s w)) = sent w
               /\ request_timeout (snd (fst (m s w))) = request_timeout s) ->
  tidy E m.
Proof.
  intros H s w r s' w' Hrun. specialize (H s w). rewrite Hrun in H.
  simpl in H. destruct H as [Hs Ht]. split; [assumption |].
  exists []. rewrite app_nil_r. split; [assumption |].
  intros pre h req post e Heq. destruct pre; discriminate.
Qed.

Lemma tidy_bind {A B} (m : M A) (k : A -> M B) :
  tidy E m -> (forall a, tidy E (k a)) -> tidy E (bind m k).
Proof.
  intros Hm Hk s w r s' w' H. unfold bind in H.
  destruct (m s w) as [[[a | e0] s1] w1] eqn:Hrun;
    destruct (Hm _ _ _ _ _ Hrun) as (Ht1 & n1 & H1 & T1).
  - destruct (Hk a _ _ _ _ _ H) as (Ht2 & n2 & H2 & T2).
    split; [congruence |].
    exists (n1 ++ n2)%list. split; [rewrite H2, H1, app_assoc; reflexivity |].
    intros pre h req post e Heq Hv.
    assert (Hlater : forall pre2,
              pre = (n1 ++ pre2)%list ->
              n2 = (pre2 ++ (h, req) :: post)%list ->
              post = [] /\ r = Raise e).
    { intros pre2 Hp Hn. apply (T2 pre2 h req post e Hn).
      rewrite Ht1, H1, length_app. subst pre.
      rewrite length_app, Nat.add_assoc in Hv. exact Hv. }
    apply app_eq_app in Heq. destruct Heq as [l [[Hn Hp] | [Hp Hn]]].
    + destruct l as [| c l'].
      * rewrite app_nil_r in Hn. simpl in Hp.
        apply (Hlater []); [rewrite app_nil_r; congruence |].
        simpl. congruence.
      * simpl in Hp. inversion Hp; subst c.
        destruct (T1 pre h req l' e Hn Hv) as [_ Habs]. discriminate.
    + apply (Hlater l); assumption.
  - inversion H; subst. split; [assumption |].
    exists n1. split; [assumption |].
    intros pre h req post e Heq Hv.
    destruct (T1 pre h req post e Heq Hv) as [Hp Hr].
    split; [assumption |]. inversion Hr. reflexivity.
Qed.

Lemma tidy_self {B} (f : Tado -> M B) :
  (forall s, tidy E (f s)) -> tidy E (bind self f).
Proof. intros H s w r s' w' Hrun. apply (H s _ _ _ _ _ Hrun). Qed.

Lemma tidy_attempt req : tidy E (attempt E req).
Proof.
  intros s w r s' w' H.
  destruct (session s) as [h |] eqn:Hs.
  - rewrite (attempt_eq req s w h Hs) in H. inversion H; subst.
    split; [reflexivity |].
    exists [(h, req)]. split; [reflexivity |].
    intros pre h' req' post e Heq Hv.
    destruct pre as [| c pre'].
    + simpl in Heq. inversion Heq; subst.
      simpl in Hv. rewrite Nat.add_0_r in Hv. auto.
    + simpl in Heq. inversion Heq.
      destruct pre'; discriminate.
  - unfold attempt, bind, self in H. rewrite Hs in H. inversion H; subst.
    split; [reflexivity |].
    exists []. rewrite app_nil_r. split; [reflexivity |].
    intros pre h req' post e Heq. destruct pre; discriminate.
Qed.

Lemma tidy_assign (f : Tado -> Tado) :
  (forall s, request_timeout (f s) = request_timeout s) -> tidy E (assign f).
Proof. intro H. apply tidy_still. intros s w. split; [reflexivity | apply H]. Qed.

Lemma tidy_getitem {A} key (v : option A) : tidy E (getitem key v).
Proof. apply tidy_still. intros s w. destruct v; split; reflexivity. Qed.

Lemma tidy_json request : tidy E (json E request).
Proof.
  apply tidy_still. intros s w. unfold json.
  destruct (response_json E request); split; reflexivity.
Qed.

Lemma tidy_decode {A} (f : string -> option A) x : tidy E (decode f x).
Proof.
  apply tidy_still. intros s w.
  destruct (decode_still f x s w) as [r H]. rewrite H. split; reflexivity.
Qed.

Lemma tidy_comprehension {A B} (f : A -> option B) obj :
  tidy E (comprehension f obj).
Proof.
  apply tidy_still. intros s w.
  destruct (comprehension_still f obj s w) as [r H]. rewrite H.
  split; reflexivity.
Qed.

Ltac tidy_step :=
  match goal with
  | |- tidy _ (bind self _) => apply tidy_self; intro
  | |- tidy _ (bind _ _) => apply tidy_bind; [| intro]
  | |- tidy _ (attempt _ _) => apply tidy_attempt
  | |- tidy _ (assign _) => apply tidy_assign; reflexivity
  | |- tidy _ (getitem _ _) => apply tidy_getitem
  | |- tidy _ (json _ _) => apply tidy_json
  | |- tidy _ (decode _ _) => apply tidy_decode
  | |- tidy _ (comprehension _ _) => apply tidy_comprehension
  | |- tidy _ (match ?x with _ => _ end) => destruct x
  | |- tidy _ _ => apply tidy_still; split; reflexivity
  end.

Lemma tidy_refresh_auth : tidy E (_refresh_auth E).
Proof. unfold _refresh_auth. cbv zeta. repeat tidy_step. Qed.

Lemma tidy_request uri data method : tidy E (_request E uri data method).
Proof.
  unfold _request. cbv zeta.
  apply tidy_bind; [apply tidy_refresh_auth | intro]. repeat tidy_step.
Qed.

Lemma tidy_get_me : tidy E (get_me E).
Proof.
  unfold get_me. apply tidy_self. intro s.
  destruct (_me s); [apply tidy_still; split; reflexivity |].
  apply tidy_bind; [apply tidy_request | intro]. repeat tidy_step.
Qed.

Lemma tidy_fetch {A B} (loads : string -> option (list A))
    (from_dict : A -> option B) (leaf : string) :
  tidy E
    (s <- self ;;
     response <- _request E (home_uri s leaf) None GET ;;
     obj <- decode loads response ;;
     comprehension from_dict obj).
Proof.
  apply tidy_self. intro s.
  apply tidy_bind; [apply tidy_request | intro]. repeat tidy_step.
Qed.

Lemma tidy_login : tidy E (_login E).
Proof.
  unfold _login. cbv zeta.
  repeat
    match goal with
    | |- tidy _ (bind (get_me _) _) =>
        apply tidy_bind; [apply tidy_get_me | intro]
    | |- _ => tidy_step
    end.
Qed.

Lemma tidy_last {A} (m : M A) :
  tidy E m ->
  forall s w n h req e,
    calls_at m s w n h req ->
    verdict (request_timeout s) (server E n req) = Raise e ->
    ends_with m s w e /\ List.length (sent (snd (m s w))) = S n.
Proof.
  intros Hm s w n h req e [Hn Hi] Hv. unfold ends_with.
  destruct (m s w) as [[r s'] w'] eqn:Hrun. simpl in *.
  destruct (Hm _ _ _ _ _ Hrun) as (_ & new & H1 & T).
  rewrite H1, nth_error_app2 in Hi by assumption.
  destruct (nth_error_split _ _ Hi) as (pre & post & Heq & Hlen).
  assert (Hidx : (List.length (sent w) + List.length pre)%nat = n) by lia.
  rewrite <- Hidx in Hv.
  destruct (T pre h req post e Heq Hv) as [Hp Hr].
  split; [assumption |].
  rewrite H1, Heq, Hp, !length_app. simpl. lia.
Qed.

(** X4: in a run of [_login], [_refresh_auth], [_request], [get_me] or an
    accessor of the home, a transport call that fails is the last transport
    call of the run, and the run ends with the exception of that failure:
    [TadoConnectionError] for a call that exceeds the timeout, the
    library's [ClientConnectionError] of the released response for an
    answer in time with a status of 400 or above, the library's own error
    for a connection that fails in time.  Nothing is tried again and
    nothing is sent after it. *)
Theorem failed_call_is_the_last :
  forall s w n h req e,
    failure (request_timeout s) (server E n req) e ->
    let last {A} (m : M A) :=
      calls_at m s w n h req ->
      ends_with m s w e /\ List.length (sent (snd (m s w))) = S n in
    last (_login E)
    /\ last (_refresh_auth E)
    /\ (forall uri data method, last (_request E uri data method))
    /\ last (get_me E)
    /\ last (get_devices E)
    /\ last (get_mobile_devices E)
    /\ last (get_zones E)
    /\ last (get_zone_states E).
Proof.
  intros s w n h req e Hv last. subst last. cbv beta.
  apply failure_verdict in Hv.
  repeat match goal with |- _ /\ _ => split end;
    try intros uri data method; intro Hc.
  - apply (tidy_last _ tidy_login s w n h req e Hc Hv).
  - apply (tidy_last _ tidy_refresh_auth s w n h req e Hc Hv).
  - apply (tidy_last _ (tidy_request uri data method) s w n h req e Hc Hv).
  - apply (tidy_last _ tidy_get_me s w n h req e Hc Hv).
  - apply (tidy_last _ (tidy_fetch (orjson_loads E) (Device_from_dict E)
                          "devices") s w n h req e Hc Hv).
  - apply (tidy_last _ (tidy_fetch (orjson_loads E)
                          (MobileDevice_from_dict E) "mobileDevices")
             s w n h req e Hc Hv).
  - apply (tidy_last _ (tidy_fetch (orjson_loads E) (Zone_from_dict E)
                          "zones") s w n h req e Hc Hv).
  - apply (tidy_last _ (tidy_fetch (orjson_loads E) (Zone_from_dict E)
                          "zoneStates") s w n h req e Hc Hv).
Qed.

(** X5: at each of the three request sites, a transport call whose
    connection fails within the timeout ends the coroutine with the
    exception of the library, [ClientError]: only a timeout is turned into
    [TadoConnectionError]. *)
Theorem connection_failure_is_not_mapped :
  forall s w n h req latency,
    server E n req = ConnFail latency ->
    ~ (inject_Z (request_timeout s) < latency)%Q ->
    (calls_at (_login E) s w n h req -> ends_with (_login E) s w ClientError)
    /\ (calls_at (_refresh_auth E) s w n h req ->
        ends_with (_refresh_auth E) s w ClientError)
    /\ (forall uri data method,
          calls_at (_request E uri data method) s w n h req ->
          ends_with (_request E uri data method) s w ClientError).
Proof.
  intros s w n h req latency Hsrv Hl.
  assert (Hv : verdict (request_timeout s) (server E n req) = Raise ClientError).
  { rewrite Hsrv. simpl. apply Qltb_false in Hl. rewrite Hl. reflexivity. }
  repeat split; intros.
  - apply (sound_aborts _ sound_login s w n h req); assumption.
  - apply (sound_aborts _ sound_refresh_auth s w n h req); assumption.
  - apply (sound_aborts _ (sound_request uri data method) s w n h req);
      assumption.
Qed.

(** *** Tokens, step by step *)

(** X6: when the token has to be refreshed and the refresh grant fails, the
    request ends with the exception of that failure: [TadoConnectionError]
    for a grant that exceeds the timeout, the library's
    [ClientConnectionError] of the released response for a grant answered
    in time with a status of 400 or above, the library's own error for a
    connection that fails in time.  The request itself is not sent and the
    object is left as it was, old tokens and expiry included. *)
Theorem failed_refresh_stops_the_request :
  forall uri data method s w h expiry e,
    session s = Some h ->
    _token_expiry s = Some expiry ->
    ~ (clock E (reads w) < expiry - 30)%Q ->
    failure (request_timeout s)
      (server E (List.length (sent w)) (refresh_request s)) e ->
    _request E uri data method s w
    = (Raise e, s, log h (refresh_request s) (tick w)).
Proof.
  intros uri data method s w h expiry e Hs He Hstale Hv.
  apply failure_verdict in Hv.
  rewrite request_eq, refresh_auth_eq, He, Hs.
  apply Qltb_false in Hstale. rewrite Hstale, Hv. reflexivity.
Qed.

(** X7: when the answer of the token endpoint to a login has an access token
    and no [expires_in], the login raises [KeyError] after it has stored the
    access token: on an object that had no expiry the access token is then
    set and the expiry is not, and every later request raises the
    [TypeError] of the refresh without a transport call. *)
Theorem token_answer_without_expiry :
  forall s w latency request ct a r,
    _token_expiry s = None ->
    server E (List.length (sent w)) (login_request s) = Answer latency request ->
    ~ (inject_Z (request_timeout s) < latency)%Q ->
    (status request < 400)%Z ->
    content_type request = Some ct ->
    str_in "application/json" ct = true ->
    response_json E request =
      Some {| access_token := Some a; expires_in := None;
              refresh_token := r |} ->
    let run := _login E s w in
    fst (fst run) = Raise (KeyError "expires_in")
    /\ _access_token (snd (fst run)) = Some a
    /\ _token_expiry (snd (fst run)) = None
    /\ forall uri data method,
         let next := _request E uri data method (snd (fst run)) (snd run) in
         fst (fst next) = Raise TypeError /\ sent (snd next) = sent (snd run).
Proof.
  intros s w latency request ct a r He Hsrv Hl Hst Hct Hin Hjson run.
  assert (Hrun : exists s1 w1,
            run = (Raise (KeyError "expires_in"),
                   set_access_token (Some a) s1, w1)
            /\ _token_expiry s1 = None).
  { unfold run. rewrite login_eq, Hsrv, verdict_accepted by assumption.
    unfold acquire.
    destruct (session s) as [h |];
      cbv [login_tail check_type store_response json bind];
      rewrite Hct, Hin, Hjson; simpl;
      eexists; eexists; (split; [reflexivity | simpl; assumption]). }
  destruct Hrun as (s1 & w1 & -> & He1). simpl.
  repeat split.
  - simpl. assumption.
  - rewrite request_eq, refresh_auth_eq. simpl. rewrite He1. reflexivity.
  - rewrite request_eq, refresh_auth_eq. simpl. rewrite He1. reflexivity.
Qed.

(** X8: when the token has to be refreshed and the grant is answered in time
    with new tokens, the request that follows carries the new access token,
    the object holds the new tokens with the expiry at the new reading of
    the clock plus [expires_in], and the next refresh grant will carry the
    new refresh token. *)
Theorem request_after_refresh_uses_new_token :
  forall uri data method s w h expiry latency request a e r,
    session s = Some h ->
    _token_expiry s = Some expiry ->
    ~ (clock E (reads w) < expiry - 30)%Q ->
    server E (List.length (sent w)) (refresh_request s) = Answer latency request ->
    ~ (inject_Z (request_timeout s) < latency)%Q ->
    (status request < 400)%Z ->
    response_json E request =
      Some {| access_token := Some a; expires_in := Some e;
              refresh_token := Some r |} ->
    let run := _request E uri data method s w in
    let s' := snd (fst run) in
    s' = store_tokens a (clock E (S (reads w)) + e)%Q r s
    /\ sent (snd run)
       = (sent w ++ [(h, refresh_request s);
                     (h, api_request s' uri data method)])%list
    /\ req_headers (api_request s' uri data method)
       = [("Authorization", "Bearer " ++ a)]
    /\ In ("refresh_token", Some r)
         (match req_data (refresh_request s') with
          | Some form => form
          | None => []
          end).
Proof.
  intros uri data method s w h expiry latency request a e r
         Hs He Hstale Hsrv Hl Hst Hjson run s'.
  assert (Hrun : exists res,
            run = (res, store_tokens a (clock E (S (reads w)) + e)%Q r s,
                   log h (api_request
                            (store_tokens a (clock E (S (reads w)) + e)%Q r s)
                            uri data method)
                     (tick (log h (refresh_request s) (tick w))))).
  { unfold run. rewrite request_eq, refresh_auth_eq, He, Hs.
    apply Qltb_false in Hstale. rewrite Hstale, Hsrv.
    rewrite verdict_accepted by assumption.
    rewrite (store_response_ok request a e r) by assumption.
    simpl session. rewrite Hs. eexists. reflexivity. }
  destruct Hrun as [res Hrun]. unfold s'. rewrite Hrun. simpl.
  repeat split.
  - rewrite <- app_assoc. reflexivity.
  - do 4 right. left. reflexivity.
Qed.

(** X9: a login on an object that holds a handle and a cached user does not
    fetch the user again: when the token endpoint answers in time with JSON
    and the three keys, the login makes this one transport call, stores the
    tokens and takes the home identifier from the first home of the cached
    user. *)
Theorem login_with_cached_user :
  forall s w h me home rest latency request ct a e r,
    session s = Some h ->
    _me s = Some me ->
    homes me = home :: rest ->
    server E (List.length (sent w)) (login_request s) = Answer latency request ->
    ~ (inject_Z (request_timeout s) < latency)%Q ->
    (status request < 400)%Z ->
    content_type request = Some ct ->
    str_in "application/json" ct = true ->
    response_json E request =
      Some {| access_token := Some a; expires_in := Some e;
              refresh_token := Some r |} ->
    _login E s w
    = (Ok tt,
       set_home_id (Some (id home))
         (store_tokens a (clock E (reads w) + e)%Q r s),
       tick (log h (login_request s) w)).
Proof.
  intros s w h me home rest latency request ct a e r
         Hs Hme Hh Hsrv Hl Hst Hct Hin Hjson.
  rewrite login_eq, Hsrv, verdict_accepted by assumption.
  unfold acquire. rewrite Hs. unfold login_tail.
  erewrite bind_ok by (unfold check_type; rewrite Hct, Hin; reflexivity).
  erewrite bind_ok by (apply store_response_ok; exact Hjson).
  assert (Hget : forall s2 w2, _me s2 = Some me ->
                   get_me E s2 w2 = (Ok me, s2, w2)).
  { intros s2 w2 H2. unfold get_me. unfold bind at 1. unfold self at 1.
    rewrite H2. reflexivity. }
  erewrite bind_ok by (apply Hget; simpl; exact Hme).
  unfold pick_home. rewrite Hh. reflexivity.
Qed.

(** *** What the object keeps over any sequence of calls *)

Lemma maintains_bind {A B} I (m : M A) (k : A -> M B) :
  maintains I m -> (forall a, maintains I (k a)) -> maintains I (bind m k).
Proof.
  intros Hm Hk s w r s' w' HI H. unfold bind in H.
  destruct (m s w) as [[[a | e] s1] w1] eqn:Hrun.
  - apply (Hk a s1 w1 r s' w'); [apply (Hm _ _ _ _ _ HI Hrun) | exact H].
  - inversion H; subst. apply (Hm _ _ _ _ _ HI Hrun).
Qed.

Lemma maintains_self {B} I (f : Tado -> M B) :
  (forall s, maintains I (f s)) -> maintains I (bind self f).
Proof. intros H s w r s' w' HI Hrun. apply (H s _ _ _ _ _ HI Hrun). Qed.

Lemma maintains_still {A} I (m : M A) :
  (forall s w, snd (fst (m s w)) = s) -> maintains I m.
Proof.
  intros H s w r s' w' HI Hrun. specialize (H s w). rewrite Hrun in H.
  simpl in H. subst. assumption.
Qed.

Lemma maintains_assign I (f : Tado -> Tado) :
  (forall s, I s -> I (f s)) -> maintains I (assign f).
Proof. intros H s w r s' w' HI Hrun. inversion Hrun; subst. auto. Qed.

Lemma maintains_decode {A} I (f : string -> option A) x :
  maintains I (decode f x).
Proof.
  apply maintains_still. intros s w.
  destruct (decode_still f x s w) as [r H]. rewrite H. reflexivity.
Qed.

Lemma maintains_comprehension {A B} I (f : A -> option B) obj :
  maintains I (comprehension f obj).
Proof.
  apply maintains_still. intros s w.
  destruct (comprehension_still f obj s w) as [r H]. rewrite H. reflexivity.
Qed.

Lemma maintains_forget {A} I (m : M A) : maintains I m -> maintains I (forget m).
Proof.
  intros H s w r s' w' HI Hrun. unfold forget in Hrun.
  destruct (m s w) as [[[a | e] s1] w1] eqn:Hm; inversion Hrun; subst;
    apply (H _ _ _ _ _ HI Hm).
Qed.

Lemma close_still s w : snd (fst (close s w)) = s.
Proof.
  rewrite close_eq. destruct (session s); [| reflexivity].
  destruct (_close_session s) as [[|] |]; reflexivity.
Qed.

Lemma get_me_cached s w me : _me s = Some me -> get_me E s w = (Ok me, s, w).
Proof.
  intro H. unfold get_me. unfold bind at 1. unfold self at 1. rewrite H.
  reflexivity.
Qed.

(** The order of the three assignments. *)
Lemma store_response_in_order request : maintains tokens_in_order
                                          (store_response E request).
Proof.
  intros s w r s' w' [H1 H2] H. unfold store_response, json in H.
  destruct (response_json E request) as [[[a |] [e |] [rt |]] |];
    cbv [bind ret raise getitem assign time_time access_token expires_in
         refresh_token] in H;
    inversion H; subst; unfold tokens_in_order; simpl;
    split; intros; try congruence; auto.
Qed.

Lemma refresh_auth_in_order : maintains tokens_in_order (_refresh_auth E).
Proof.
  intros s w r s' w' HI H. rewrite refresh_auth_eq in H.
  destruct (_token_expiry s); [| inversion H; subst; assumption].
  destruct (Qltb _ _); [inversion H; subst; assumption |].
  destruct (session s); [| inversion H; subst; assumption].
  destruct (verdict _ _) as [request | e];
    [| inversion H; subst; assumption].
  apply (store_response_in_order request _ _ _ _ _ HI H).
Qed.

Lemma request_in_order uri data method :
  maintains tokens_in_order (_request E uri data method).
Proof.
  intros s w r s' w' HI H. rewrite request_eq in H.
  destruct (_refresh_auth E s w) as [[[[] | e] s0] w0] eqn:Hr;
    pose proof (refresh_auth_in_order _ _ _ _ _ HI Hr) as H0.
  - destruct (session s0); inversion H; subst; assumption.
  - inversion H; subst. assumption.
Qed.

Ltac in_order_step :=
  match goal with
  | |- maintains _ (bind self _) => apply maintains_self; intro
  | |- maintains _ (bind _ _) => apply maintains_bind; [| intro]
  | |- maintains _ (_request _ _ _ _) => apply request_in_order
  | |- maintains _ (store_response _ _) => apply store_response_in_order
  | |- maintains _ (decode _ _) => apply maintains_decode
  | |- maintains _ (comprehension _ _) => apply maintains_comprehension
  | |- maintains _ (assign _) =>
      apply maintains_assign; intros ? [? ?]; split; assumption
  | |- maintains _ (match ?x with _ => _ end) => destruct x
  | |- maintains _ _ => apply maintains_still; reflexivity
  end.

Lemma get_me_in_order : maintains tokens_in_order (get_me E).
Proof. unfold get_me. repeat in_order_step. Qed.

Lemma login_in_order : maintains tokens_in_order (_login E).
Proof.
  intros s w r s' w' HI H. rewrite login_eq in H.
  assert (Hacq : tokens_in_order (fst (fst (acquire s w))))
    by (unfold acquire; destruct (session s); exact HI).
  destruct (acquire s w) as [[s1 w1] h]. simpl in Hacq.
  destruct (verdict _ _) as [request | e];
    [| inversion H; subst; assumption].
  revert H. generalize (log h (login_request s) w1). intros w2 H.
  assert (Htail : maintains tokens_in_order (login_tail E request)).
  { unfold login_tail, check_type, pick_home.
    repeat first [apply get_me_in_order | in_order_step]. }
  apply (Htail _ _ _ _ _ Hacq H).
Qed.

Lemma call_in_order c : maintains tokens_in_order (call E c).
Proof.
  destruct c; simpl; try apply maintains_forget.
  - apply login_in_order.
  - apply get_me_in_order.
  - unfold get_devices. repeat in_order_step.
  - unfold get_mobile_devices. repeat in_order_step.
  - unfold get_zones. repeat in_order_step.
  - unfold get_zone_states. repeat in_order_step.
  - apply maintains_still. apply close_still.
Qed.

(** X10: whatever a caller does with a new object, also when calls fail
    halfway, the object never holds an expiry without an access token, nor a
    refresh token without an expiry. *)
Theorem tokens_are_stored_in_order :
  forall username password debug cs w,
    tokens_in_order (fst (calls E cs (__init__ username password debug) w)).
Proof.
  intros username password debug cs w.
  assert (H0 : tokens_in_order (__init__ username password debug))
    by (split; intro H; exfalso; apply H; reflexivity).
  revert H0. generalize (__init__ username password debug). revert w.
  induction cs as [| c rest IH]; intros w s HI; simpl; [exact HI |].
  destruct (call E c s w) as [[r s1] w1] eqn:Hc.
  apply IH. apply (call_in_order c _ _ _ _ _ HI Hc).
Qed.

(** What a login does to the cached user and to the home identifier. *)
Lemma login_cases s w r s' w' :
  _login E s w = (r, s', w') ->
  (forall me0, _me s = Some me0 -> _me s' = Some me0)
  /\ (((exists e, r = Raise e) /\ _home_id s' = _home_id s)
      \/ exists me home rest,
           _me s' = Some me /\ homes me = home :: rest
           /\ _home_id s' = Some (id home)).
Proof.
  intro H. rewrite login_eq in H.
  assert (Hacq : _home_id (fst (fst (acquire s w))) = _home_id s
                 /\ _me (fst (fst (acquire s w))) = _me s)
    by (unfold acquire; destruct (session s); split; reflexivity).
  destruct (acquire s w) as [[s1 w1] h]. simpl in Hacq.
  destruct Hacq as [Hh1 Hm1].
  destruct (verdict _ _) as [request | e].
  2:{ inversion H; subst. split; [intros; congruence |].
      left. split; [eauto | assumption]. }
  revert H. generalize (log h (login_request s) w1). intros w2 H.
  unfold login_tail in H. unfold bind at 1 in H.
  destruct (check_type request s1 w2) as [[ra sa] wa] eqn:Ha.
  assert (Hsa : sa = s1).
  { unfold check_type in Ha. destruct (content_type request);
      [destruct (negb _) |]; inversion Ha; reflexivity. }
  subst sa. destruct ra as [[] | e].
  2:{ inversion H; subst. split; [intros; congruence |].
      left. split; [eauto | assumption]. }
  unfold bind at 1 in H.
  destruct (store_response E request s1 wa) as [[rb sb] wb] eqn:Hb.
  pose proof (store_response_keeps _me request (fun _ _ => eq_refl)
                (fun _ _ => eq_refl) (fun _ _ => eq_refl) _ _ _ _ _ Hb)
    as Hmb.
  pose proof (store_response_keeps _home_id request (fun _ _ => eq_refl)
                (fun _ _ => eq_refl) (fun _ _ => eq_refl) _ _ _ _ _ Hb)
    as Hhb.
  destruct rb as [[] | e].
  2:{ inversion H; subst. split; [intros; congruence |].
      left. split; [eauto | congruence]. }
  unfold bind at 1 in H.
  destruct (get_me E sb wb) as [[rc sc] wc] eqn:Hc.
  destruct (get_me_cases _ _ _ _ _ Hc) as [Hhc Hmc].
  assert (Hkeep : forall me0, _me s = Some me0 -> _me sc = Some me0).
  { intros me0 H0.
    rewrite (get_me_cached sb wb me0) in Hc by congruence.
    inversion Hc; subst. congruence. }
  destruct rc as [me | e].
  2:{ inversion H; subst. split; [exact Hkeep |].
      left. split; [eauto | congruence]. }
  unfold pick_home in H. destruct (homes me) as [| home rest] eqn:Hhomes.
  - inversion H; subst. split; [exact Hkeep |].
    left. split; [eauto | congruence].
  - inversion H; subst. split; [exact Hkeep |].
    right. exists me, home, rest. auto.
Qed.

Lemma fetch_keeps {A B T} (field : Tado -> T)
    (loads : string -> option (list A)) (from_dict : A -> option B)
    (leaf : string) :
  (forall v s, field (set_access_token v s) = field s) ->
  (forall v s, field (set_token_expiry v s) = field s) ->
  (forall v s, field (set_refesh_token v s) = field s) ->
  keeps field
    (forget
       (s <- self ;;
        response <- _request E (home_uri s leaf) None GET ;;
        obj <- decode loads response ;;
        comprehension from_dict obj)).
Proof.
  intros H1 H2 H3 s w r s' w' H.
  assert (Hk : keeps field
                 (s <- self ;;
                  response <- _request E (home_uri s leaf) None GET ;;
                  obj <- decode loads response ;;
                  comprehension from_dict obj))
    by (repeat first [apply request_keeps; assumption | keeps_step]).
  unfold forget in H.
  destruct ((s0 <- self ;;
             response <- _request E (home_uri s0 leaf) None GET ;;
             obj <- decode loads response ;;
             comprehension from_dict obj) s w) as [[[a | e] s1] w1] eqn:Hrun;
    inversion H; subst; apply (Hk _ _ _ _ _ Hrun).
Qed.

(** What any call does to the cached user and to the home identifier. *)
Lemma call_user_home c s w r s' w' :
  call E c s w = (r, s', w') ->
  (forall me, _me s = Some me -> _me s' = Some me)
  /\ (home_of_user s -> home_of_user s').
Proof.
  intro H.
  assert (Hsame : _me s' = _me s -> _home_id s' = _home_id s ->
            (forall me, _me s = Some me -> _me s' = Some me)
            /\ (home_of_user s -> home_of_user s')).
  { intros Hm Hh. split; [intros; congruence |].
    unfold home_of_user. rewrite Hm, Hh. auto. }
  assert (Hacc : forall A B (loads : string -> option (list A))
                   (from_dict : A -> option B) (leaf : string),
            forget
              (s <- self ;;
               response <- _request E (home_uri s leaf) None GET ;;
               obj <- decode loads response ;;
               comprehension from_dict obj) s w = (r, s', w') ->
            (forall me, _me s = Some me -> _me s' = Some me)
            /\ (home_of_user s -> home_of_user s')).
  { intros A B loads from_dict leaf Hrun. apply Hsame.
    - apply (fetch_keeps _me loads from_dict leaf (fun _ _ => eq_refl)
               (fun _ _ => eq_refl) (fun _ _ => eq_refl) _ _ _ _ _ Hrun).
    - apply (fetch_keeps _home_id loads from_dict leaf (fun _ _ => eq_refl)
               (fun _ _ => eq_refl) (fun _ _ => eq_refl) _ _ _ _ _ Hrun). }
  destruct c; simpl in H.
  - destruct (login_cases _ _ _ _ _ H) as [Hm Hh].
    split; [exact Hm |]. intros HI n Hn.
    destruct Hh as [[_ Hh] | (me & home & rest & H1 & H2 & H3)].
    + rewrite Hh in Hn. destruct (HI n Hn) as (me & home & rest & H1 & H2).
      exists me, home, rest. split; [apply Hm; assumption | assumption].
    + exists me, home, rest. repeat split; try assumption. congruence.
  - unfold forget in H.
    destruct (get_me E s w) as [[[me | e] s1] w1] eqn:Hg;
      inversion H; subst; destruct (get_me_cases _ _ _ _ _ Hg) as [Hh Hm].
    + destruct (_me s) as [me0 |] eqn:Hme.
      * rewrite (get_me_cached s w me0 Hme) in Hg. inversion Hg; subst.
        split; [intros; congruence | auto].
      * split; [intros; discriminate |].
        intros HI n Hn. rewrite Hh in Hn.
        destruct (HI n Hn) as (me1 & _ & _ & Habs & _). congruence.
    + apply Hsame; assumption.
  - apply (Hacc _ _ (orjson_loads E) (Device_from_dict E) "devices" H).
  - apply (Hacc _ _ (orjson_loads E) (MobileDevice_from_dict E)
             "mobileDevices" H).
  - apply (Hacc _ _ (orjson_loads E) (Zone_from_dict E) "zones" H).
  - apply (Hacc _ _ (orjson_loads E) (Zone_from_dict E) "zoneStates" H).
  - pose proof (close_still s w) as Hc. rewrite H in Hc. simpl in Hc.
    subst. apply Hsame; reflexivity.
Qed.

(** X11: whatever a caller does with a new object, a home identifier that
    the object holds is the identifier of the first home of the user that
    it has cached. *)
Theorem home_is_first_home_of_cached_user :
  forall username password debug cs w,
    home_of_user (fst (calls E cs (__init__ username password debug) w)).
Proof.
  intros username password debug cs w.
  assert (H0 : home_of_user (__init__ username password debug))
    by (intros n Hn; discriminate).
  revert H0. generalize (__init__ username password debug). revert w.
  induction cs as [| c rest IH]; intros w s HI; simpl; [exact HI |].
  destruct (call E c s w) as [[r s1] w1] eqn:Hc.
  apply IH. apply (proj2 (call_user_home c _ _ _ _ _ Hc) HI).
Qed.

(** X12: once a user is cached, no call replaces or drops it: not an
    accessor, not [close], and not another login, which takes the home from
    the cached user instead of fetching the user again. *)
Theorem cached_user_is_never_replaced :
  forall cs s w me,
    _me s = Some me -> _me (fst (calls E cs s w)) = Some me.
Proof.
  induction cs as [| c rest IH]; intros s w me Hme; simpl; [exact Hme |].
  destruct (call E c s w) as [[r s1] w1] eqn:Hc.
  apply IH. apply (proj1 (call_user_home c _ _ _ _ _ Hc) me Hme).
Qed.

(** *** The handle over the scope and after it *)

(** What a login that returns leaves of the handle, on an object that had
    none. *)
Lemma login_owns_handle s w s1 w1 :
  session s = None ->
  _login E s w = (Ok tt, s1, w1) ->
  session s1 = Some (OwnHandle (made w))
  /\ _close_session s1 = Some true
  /\ made w1 = S (made w)
  /\ closed w1 = closed w.
Proof.
  intros Hs H. rewrite login_eq in H. unfold acquire in H. rewrite Hs in H.
  destruct (verdict _ _) as [request | e0]; [| discriminate].
  destruct (sound_login_tail request _ _ _ _ _ H) as [_ _ _ Hh _ Hc].
  destruct (Hh (OwnHandle (made w)) eq_refl) as (H1 & H2 & H3).
  repeat split; assumption.
Qed.

(** X13: when the login of a scope returns on an object that had no handle,
    the scope ends as its body ends, with the result or the exception of
    the body, and the handle that the login made is closed once, on the way
    out; the object keeps what the body left in it, tokens included, and
    still holds the closed handle. *)
Theorem scope_closes_its_own_handle :
  forall A (body : M A) s w s1 w1 r s2 w2,
    sound E body ->
    session s = None ->
    __aenter__ E s w = (Ok tt, s1, w1) ->
    body s1 w1 = (r, s2, w2) ->
    async_with E body s w = (r, s2, shut (OwnHandle (made w)) w2)
    /\ closed (shut (OwnHandle (made w)) w2)
       = (closed w ++ [OwnHandle (made w)])%list
    /\ session s2 = Some (OwnHandle (made w)).
Proof.
  intros A body s w s1 w1 r s2 w2 Hb Hs H Hrun.
  destruct (login_owns_handle s w s1 w1 Hs H) as (H1 & H2 & _ & H4).
  destruct (Hb _ _ _ _ _ Hrun) as [_ _ _ Hh _ Hc].
  destruct (Hh _ H1) as (H5 & _ & H6).
  split; [| split; [simpl; congruence | assumption]].
  unfold async_with. rewrite H, Hrun. unfold __aexit__.
  rewrite close_eq, H5, H6, H2. reflexivity.
Qed.

(** X14: when the caller has assigned a handle to a new object, so that
    [_close_session] was never set, a scope whose login returns ends with
    the [AttributeError] of [close], whatever the body returned or raised;
    the handle of the caller is not closed. *)
Theorem scope_with_a_caller_handle_raises :
  forall A (body : M A) s w h s1 w1 r s2 w2,
    sound E body ->
    session s = Some h ->
    _close_session s = None ->
    __aenter__ E s w = (Ok tt, s1, w1) ->
    body s1 w1 = (r, s2, w2) ->
    async_with E body s w = (Raise AttributeError, s2, w2)
    /\ closed w2 = closed w
    /\ made w2 = made w.
Proof.
  intros A body s w h s1 w1 r s2 w2 Hb Hs Hc H Hrun.
  destruct (sound_login _ _ _ _ _ H) as [_ _ _ Hh1 _ Hc1].
  destruct (Hh1 h Hs) as (H1 & H2 & H3).
  destruct (Hb _ _ _ _ _ Hrun) as [_ _ _ Hh2 _ Hc2].
  destruct (Hh2 h H1) as (H4 & H5 & H6).
  split; [| split; congruence].
  unfold async_with. rewrite H, Hrun. unfold __aexit__.
  rewrite close_eq, H4, H6, H3, Hc. reflexivity.
Qed.

(** X15: [close] closes the handle and leaves it in the object: a second
    [close] closes it again, and a login after [close] makes no new handle
    and sends all its transport calls through the closed one. *)
Theorem close_keeps_the_closed_handle :
  forall s w h,
    session s = Some h ->
    _close_session s = Some true ->
    close s w = (Ok tt, s, shut h w)
    /\ close s (shut h w) = (Ok tt, s, shut h (shut h w))
    /\ let run := _login E s (shut h w) in
       session (snd (fst run)) = Some h
       /\ made (snd run) = made w
       /\ closed (snd run) = (closed w ++ [h])%list
       /\ forall n h' req, issued (shut h w) (snd run) n h' req -> h' = h.
Proof.
  intros s w h Hs Hc.
  split; [rewrite close_eq, Hs, Hc; reflexivity |].
  split; [rewrite close_eq, Hs, Hc; reflexivity |].
  intro run.
  destruct (_login E s (shut h w)) as [[r s'] w'] eqn:H. subst run. simpl.
  destruct (sound_login _ _ _ _ _ H) as [_ _ _ Hh Hu Hcl].
  destruct (Hh h Hs) as (H1 & H2 & _).
  repeat split; try assumption.
  intros n h' req Hi. specialize (Hu n h' req Hi). congruence.
Qed.

(** *** Which requests are sent *)

Lemma verdict_ok tmo out request :
  verdict tmo out = Ok request -> exists latency, out = Answer latency request.
Proof.
  destruct out as [latency r | latency |]; simpl.
  - destruct (Qltb (inject_Z tmo) latency); [discriminate |].
    destruct (400 <=? status r)%Z; [discriminate |].
    intro H. inversion H. exists latency. reflexivity.
  - destruct (Qltb (inject_Z tmo) latency); discriminate.
  - discriminate.
Qed.

Lemma granted_refl field t : granted E field t t.
Proof. left. reflexivity. Qed.

Lemma granted_trans field t0 t1 t2 :
  granted E field t0 t1 -> granted E field t1 t2 -> granted E field t0 t2.
Proof.
  intros H1 [H2 | H2]; [subst; assumption | right; assumption].
Qed.

Lemma derived_refl s : derived E s s.
Proof. repeat split; apply granted_refl. Qed.

Lemma derived_trans s0 s1 s2 :
  derived E s0 s1 -> derived E s1 s2 -> derived E s0 s2.
Proof.
  intros (U1 & P1 & A1 & R1) (U2 & P2 & A2 & R2).
  repeat split; try congruence; eapply granted_trans; eassumption.
Qed.

Lemma lawful_derived s0 s1 req :
  derived E s0 s1 -> lawful E s1 req -> lawful E s0 req.
Proof.
  intros H (s' & Hd & Hreq). exists s'.
  split; [apply (derived_trans _ _ _ H Hd) | assumption].
Qed.

Lemma trace_refl s w : trace E s w s w.
Proof.
  split; [apply derived_refl |].
  exists []. rewrite app_nil_r. split; [reflexivity | constructor].
Qed.

Lemma trace_trans s0 w0 s1 w1 s2 w2 :
  trace E s0 w0 s1 w1 -> trace E s1 w1 s2 w2 -> trace E s0 w0 s2 w2.
Proof.
  intros (D1 & n1 & H1 & F1) (D2 & n2 & H2 & F2).
  split; [apply (derived_trans _ _ _ D1 D2) |].
  exists (n1 ++ n2)%list. rewrite H2, H1, app_assoc.
  split; [reflexivity |]. apply Forall_app. split; [assumption |].
  eapply Forall_impl; [| exact F2].
  intros c Hc. apply (lawful_derived _ _ _ D1 Hc).
Qed.

(** The tokens that [store_response] assigns are those of the answer. *)
Lemma store_response_derived n req latency request s w r s' w' :
  req_url req = _token_url ->
  server E n req = Answer latency request ->
  store_response E request s w = (r, s', w') ->
  derived E s s' /\ sent w' = sent w.
Proof.
  intros Hurl Hsrv H.
  pose proof (store_response_sent request s w) as Hsent.
  rewrite H in Hsent. simpl in Hsent. split; [| assumption].
  unfold store_response, json in H.
  destruct (response_json E request) as [d |] eqn:Hd;
    [| inversion H; subst; apply derived_refl].
  assert (G : forall field a,
            field d = Some a -> forall old, granted E field old (Some a)).
  { intros field a Hf old. right.
    exists n, req, latency, request, d, a. auto 6. }
  destruct d as [[a |] [e |] [rt |]];
    cbv [bind getitem assign time_time ret raise access_token expires_in
         refresh_token] in H;
    inversion H; subst;
    try apply derived_refl;
    repeat split; simpl;
    first [apply granted_refl | apply (G access_token); reflexivity
          | apply (G refresh_token); reflexivity].
Qed.

Lemma refresh_trace s w r s' w' :
  _refresh_auth E s w = (r, s', w') -> trace E s w s' w'.
Proof.
  intro H.
  assert (Hd : derived E s s').
  { rewrite refresh_auth_eq in H.
    destruct (_token_expiry s) as [expiry |];
      [| inversion H; subst; apply derived_refl].
    destruct (Qltb (clock E (reads w)) (expiry - 30));
      [inversion H; subst; apply derived_refl |].
    destruct (session s) as [h |];
      [| inversion H; subst; apply derived_refl].
    destruct (verdict _ _) as [request | e] eqn:Hv;
      [| inversion H; subst; apply derived_refl].
    destruct (verdict_ok _ _ _ Hv) as [latency Hsrv].
    apply (store_response_derived _ (refresh_request s) latency request
             s _ r s' w' eq_refl Hsrv H). }
  split; [assumption |].
  destruct (refresh_sent _ _ _ _ _ H) as [Hq | [h [_ Hq]]].
  - exists []. rewrite app_nil_r. split; [assumption | constructor].
  - exists [(h, refresh_request s)]. split; [assumption |].
    constructor; [| constructor].
    exists s. split; [apply derived_refl | auto].
Qed.

Lemma request_trace uri s w r s' w' :
  api_path uri ->
  _request E uri None GET s w = (r, s', w') -> trace E s w s' w'.
Proof.
  intros Hp H. rewrite request_eq in H.
  destruct (_refresh_auth E s w) as [[r0 s0] w0] eqn:Hr.
  pose proof (refresh_trace _ _ _ _ _ Hr) as T0.
  destruct r0 as [[] | e]; [| inversion H; subst; assumption].
  destruct (session s0) as [h |]; inversion H; subst; [| assumption].
  apply (trace_trans _ _ _ _ _ _ T0).
  split; [apply derived_refl |].
  exists [(h, api_request s' uri None GET)]. split; [reflexivity |].
  constructor; [| constructor].
  exists s'. split; [apply derived_refl |]. right. right.
  exists uri. split; [assumption | reflexivity].
Qed.

Lemma get_me_trace s w r s' w' :
  get_me E s w = (r, s', w') -> trace E s w s' w'.
Proof.
  intro H. unfold get_me in H. unfold bind at 1 in H. unfold self at 1 in H.
  destruct (_me s) as [me |];
    [inversion H; subst; apply trace_refl |].
  unfold bind at 1 in H.
  destruct (_request E "me" None GET s w) as [[[body | e] s0] w0] eqn:Hr.
  - pose proof (request_trace "me" _ _ _ _ _ (or_introl eq_refl) Hr) as T0.
    cbv [decode bind assign ret raise] in H.
    destruct (GetMe_from_json E body) as [me |]; inversion H; subst;
      [| assumption].
    apply (trace_trans _ _ _ _ _ _ T0).
    split; [repeat split; apply granted_refl |].
    exists []. rewrite app_nil_r. split; [reflexivity | constructor].
  - inversion H; subst.
    apply (request_trace "me" _ _ _ _ _ (or_introl eq_refl) Hr).
Qed.

(** The run of an accessor of the home is the run of its request: the
    decoders touch neither the object nor the world. *)
Lemma fetch_run {A B} (loads : string -> option (list A))
    (from_dict : A -> option B) uri s w r s' w' :
  (response <- _request E uri None GET ;;
   obj <- decode loads response ;;
   comprehension from_dict obj) s w = (r, s', w') ->
  exists r0,
    _request E uri None GET s w = (r0, s', w')
    /\ forall v, r = Ok v -> exists body, r0 = Ok body.
Proof.
  intro H. unfold bind at 1 in H.
  destruct (_request E uri None GET s w) as [[[body | e] s0] w0] eqn:Hr.
  - unfold bind in H.
    destruct (decode_still loads body s0 w0) as [[obj | e] Hd];
      rewrite Hd in H.
    + destruct (comprehension_still from_dict obj s0 w0) as [rc Hc].
      rewrite Hc in H. inversion H; subst. eauto.
    + inversion H; subst. eauto.
  - inversion H; subst. exists (Raise e).
    split; [reflexivity | discriminate].
Qed.

Lemma home_path s leaf :
  In leaf ["devices"; "mobileDevices"; "zones"; "zoneStates"] ->
  api_path (home_uri s leaf).
Proof.
  intro Hin. right. unfold home_uri.
  destruct (_home_id s) as [n |].
  - exists (str_of_int n), leaf. eauto.
  - exists "None", leaf. auto.
Qed.

Lemma fetch_trace {A B} (loads : string -> option (list A))
    (from_dict : A -> option B) leaf s w r s' w' :
  In leaf ["devices"; "mobileDevices"; "zones"; "zoneStates"] ->
  (s0 <- self ;;
   response <- _request E (home_uri s0 leaf) None GET ;;
   obj <- decode loads response ;;
   comprehension from_dict obj) s w = (r, s', w') ->
  trace E s w s' w'.
Proof.
  intros Hin H. unfold bind at 1 in H. unfold self at 1 in H.
  destruct (fetch_run _ _ _ _ _ _ _ _ H) as (r0 & Hr & _).
  apply (request_trace _ _ _ _ _ _ (home_path s leaf Hin) Hr).
Qed.

Lemma login_trace s w r s' w' :
  _login E s w = (r, s', w') -> trace E s w s' w'.
Proof.
  intro H. rewrite login_eq in H.
  destruct (acquire s w) as [[s1 w1] h] eqn:Ha.
  assert (D1 : derived E s s1 /\ sent w1 = sent w
               /\ login_request s1 = login_request s).
  { unfold acquire in Ha.
    destruct (session s); inversion Ha; subst;
      repeat split; apply granted_refl. }
  destruct D1 as (D1 & Hw1 & Hreq).
  assert (T1 : trace E s w s1 (log h (login_request s) w1)).
  { split; [assumption |].
    exists [(h, login_request s)]. simpl. rewrite Hw1.
    split; [reflexivity |]. constructor; [| constructor].
    exists s. split; [apply derived_refl | auto]. }
  destruct (verdict _ _) as [request | e] eqn:Hv;
    [| inversion H; subst; assumption].
  destruct (verdict_ok _ _ _ Hv) as [latency Hsrv].
  apply (trace_trans _ _ _ _ _ _ T1).
  unfold login_tail in H. unfold bind at 1 in H.
  assert (Hct : exists rc, check_type request s1 (log h (login_request s) w1)
                           = (rc, s1, log h (login_request s) w1)).
  { unfold check_type. destruct (content_type request) as [ct |];
      [destruct (negb (str_in "application/json" ct)) |]; eexists; reflexivity. }
  destruct Hct as [rc Hct]. rewrite Hct in H.
  destruct rc as [[] | e]; [| inversion H; subst; apply trace_refl].
  unfold bind at 1 in H.
  destruct (store_response E request s1 (log h (login_request s) w1))
    as [[rs s2] w2] eqn:Hst.
  destruct (store_response_derived _ (login_request s) latency request
              _ _ _ _ _ eq_refl Hsrv Hst) as [D2 Hw2].
  assert (T2 : trace E s1 (log h (login_request s) w1) s2 w2).
  { split; [assumption |]. exists []. rewrite app_nil_r.
    split; [assumption | constructor]. }
  destruct rs as [[] | e]; [| inversion H; subst; assumption].
  apply (trace_trans _ _ _ _ _ _ T2).
  unfold bind at 1 in H.
  destruct (get_me E s2 w2) as [[rm s3] w3] eqn:Hm.
  pose proof (get_me_trace _ _ _ _ _ Hm) as T3.
  destruct rm as [me | e]; [| inversion H; subst; assumption].
  apply (trace_trans _ _ _ _ _ _ T3).
  unfold pick_home in H.
  destruct (homes me) as [| home rest]; inversion H; subst;
    [apply trace_refl |].
  split; [repeat split; apply granted_refl |].
  exists []. rewrite app_nil_r. split; [reflexivity | constructor].
Qed.

Lemma trace_forget {A} (m : M A) s w r s' w' :
  (forall r0, m s w = (r0, s', w') -> trace E s w s' w') ->
  forget m s w = (r, s', w') -> trace E s w s' w'.
Proof.
  intros Hm H. unfold forget in H.
  destruct (m s w) as [[[a | e] s1] w1]; inversion H; subst;
    eapply Hm; reflexivity.
Qed.

Lemma call_trace c s w r s' w' :
  call E c s w = (r, s', w') -> trace E s w s' w'.
Proof.
  destruct c; simpl; intro H.
  - apply (login_trace _ _ _ _ _ H).
  - apply (trace_forget _ _ _ _ _ _ (fun r0 => get_me_trace s w r0 s' w') H).
  - apply (trace_forget _ _ _ _ _ _
             (fun r0 => fetch_trace (orjson_loads E) (Device_from_dict E)
                          "devices" s w r0 s' w' ltac:(simpl; auto)) H).
  - apply (trace_forget _ _ _ _ _ _
             (fun r0 => fetch_trace (orjson_loads E) (MobileDevice_from_dict E)
                          "mobileDevices" s w r0 s' w' ltac:(simpl; auto)) H).
  - apply (trace_forget _ _ _ _ _ _
             (fun r0 => fetch_trace (orjson_loads E) (Zone_from_dict E)
                          "zones" s w r0 s' w' ltac:(simpl; auto)) H).
  - apply (trace_forget _ _ _ _ _ _
             (fun r0 => fetch_trace (orjson_loads E) (Zone_from_dict E)
                          "zoneStates" s w r0 s' w' ltac:(simpl; auto)) H).
  - rewrite close_eq in H.
    destruct (session s) as [h |]; [| inversion H; subst; apply trace_refl].
    destruct (_close_session s) as [[|] |]; inversion H; subst;
      try apply trace_refl.
    split; [apply derived_refl |]. exists []. rewrite app_nil_r.
    split; [reflexivity | constructor].
Qed.

(** X1: whatever a caller does with the object, logins, accessors and
    [close] in any order and whatever the server answers, every transport
    call is one of three requests: the password grant, a POST to the token
    endpoint with the username and the password of the object; a refresh
    grant, a POST to the token endpoint with a refresh token that the
    object had or that the token endpoint has granted; or a GET to the API,
    to [me] or to one of the four collections of a home, whose only header
    is the bearer token, an access token that the object had or that the
    token endpoint has granted, with no form data and no body.  So what
    does not go to the token endpoint carries nothing of the object but
    such an access token and a home identifier. *)
Theorem traffic_is_token_or_api_calls :
  forall cs s w,
    exists new,
      sent (snd (calls E cs s w)) = (sent w ++ new)%list
      /\ Forall (fun c => lawful E s (snd c)) new
      /\ Forall
           (fun c =>
              req_url (snd c) = _token_url
              \/ (req_method (snd c) = "GET"
                  /\ req_data (snd c) = None
                  /\ req_json (snd c) = None
                  /\ (exists uri,
                        api_path uri /\ req_url (snd c) = api_url uri)
                  /\ exists token,
                       granted E access_token (_access_token s) token
                       /\ req_headers (snd c)
                          = [("Authorization", "Bearer " ++ fmt token)]))
           new.
Proof.
  assert (Hall : forall cs s w, trace E s w (fst (calls E cs s w))
                                  (snd (calls E cs s w))).
  { induction cs as [| c rest IH]; intros s w; simpl.
    - apply trace_refl.
    - destruct (call E c s w) as [[r s1] w1] eqn:Hc.
      apply (trace_trans _ _ _ _ _ _ (call_trace _ _ _ _ _ _ Hc) (IH s1 w1)). }
  intros cs s w. destruct (Hall cs s w) as (_ & new & Hsent & Hlaw).
  exists new. split; [assumption |]. split; [assumption |].
  eapply Forall_impl; [| exact Hlaw].
  intros c (s' & (_ & _ & Ha & _) & [Hq | [Hq | (uri & Hp & Hq)]]);
    rewrite Hq; [left; reflexivity | left; reflexivity |].
  right. repeat split; [exists uri; auto |].
  exists (_access_token s'). split; [assumption | reflexivity].
Qed.

(** The requests of [_request], one by one. *)
Lemma request_traffic uri data method s w r s' w' :
  _request E uri data method s w = (r, s', w') ->
  let grant := refresh_request s in
  let ask := api_request s' uri data method in
  exists new,
    sent w' = (sent w ++ new)%list
    /\ (new = []
        \/ exists h,
             session s = Some h
             /\ (new = [(h, grant)] \/ new = [(h, ask)]
                 \/ new = [(h, grant); (h, ask)]))
    /\ (forall v, r = Ok v ->
        exists h, new = [(h, ask)] \/ new = [(h, grant); (h, ask)])
    /\ (forall h expiry,
          session s = Some h -> _token_expiry s = Some expiry ->
          (clock E (reads w) < expiry - 30)%Q ->
          s' = s /\ new = [(h, ask)]).
Proof.
  intros H grant ask. subst grant ask.
  rewrite request_eq, refresh_auth_eq in H.
  destruct (_token_expiry s) as [expiry |] eqn:He.
  2:{ inversion H; subst. exists []. rewrite app_nil_r.
      repeat split; try (left; reflexivity); intros; discriminate. }
  destruct (Qltb (clock E (reads w)) (expiry - 30)) eqn:Hq.
  - destruct (session s) as [h |] eqn:Hs; inversion H; subst.
    + exists [(h, api_request s' uri data method)].
      split; [reflexivity |]. split; [right; exists h; auto |].
      split; [intros; exists h; auto |].
      intros h' expiry' Hh' _ _. inversion Hh'; subst. auto.
    + exists []. rewrite app_nil_r.
      repeat split; try (left; reflexivity); intros; discriminate.
  - assert (Hstale : forall expiry',
              Some expiry = Some expiry' ->
              ~ (clock E (reads w) < expiry' - 30)%Q).
    { intros expiry' Heq. inversion Heq; subst.
      apply Qltb_false. assumption. }
    destruct (session s) as [h |] eqn:Hs.
    2:{ inversion H; subst. exists []. rewrite app_nil_r.
        repeat split; try (left; reflexivity); intros; discriminate. }
    destruct (verdict _ _) as [request | e].
    2:{ inversion H; subst. exists [(h, refresh_request s')].
        split; [reflexivity |]. split; [right; exists h; auto |].
        split; [intros; discriminate |].
        intros h' expiry' _ Heq Hlt. destruct (Hstale _ Heq Hlt). }
    destruct (store_response E request s
                (log h (refresh_request s) (tick w)))
      as [[r0 s0] w0] eqn:Hst.
    pose proof (store_response_sent request s
                  (log h (refresh_request s) (tick w))) as Hsent.
    rewrite Hst in Hsent. simpl in Hsent.
    pose proof (store_response_keeps session request
                  (fun _ _ => eq_refl) (fun _ _ => eq_refl)
                  (fun _ _ => eq_refl) _ _ _ _ _ Hst) as Hk.
    rewrite Hs in Hk.
    destruct r0 as [[] | e].
    + rewrite Hk in H. inversion H; subst.
      exists [(h, refresh_request s); (h, api_request s' uri data method)].
      split; [simpl; rewrite Hsent, <- app_assoc; reflexivity |].
      split; [right; exists h; auto |].
      split; [intros; exists h; auto |].
      intros h' expiry' _ Heq Hlt. destruct (Hstale _ Heq Hlt).
    + inversion H; subst. exists [(h, refresh_request s)].
      split; [assumption |]. split; [right; exists h; auto |].
      split; [intros; discriminate |].
      intros h' expiry' _ Heq Hlt. destruct (Hstale _ Heq Hlt).
Qed.

(** X3: each accessor of the home sends its request, a GET with the bearer
    token, to its own path under the home identifier that the object holds
    when it is called, and nothing else but the refresh grant before it:
    the transport calls of a run are none, the refresh grant, the request,
    or the refresh grant and then the request.  An accessor that returns
    has sent the request, as its last call; and with a handle and a token
    that is still fresh it sends the request and nothing else, whatever
    comes back. *)
Theorem accessors_request_their_path :
  forall s w,
    let asks {A} (leaf : string) (m : M A) :=
      let s' := snd (fst (m s w)) in
      let grant := refresh_request s in
      let ask := api_request s' (home_uri s leaf) None GET in
      exists new,
        sent (snd (m s w)) = (sent w ++ new)%list
        /\ (new = []
            \/ exists h,
                 session s = Some h
                 /\ (new = [(h, grant)] \/ new = [(h, ask)]
                     \/ new = [(h, grant); (h, ask)]))
        /\ (forall v, fst (fst (m s w)) = Ok v ->
            exists h, new = [(h, ask)] \/ new = [(h, grant); (h, ask)])
        /\ (forall h expiry,
              session s = Some h -> _token_expiry s = Some expiry ->
              (clock E (reads w) < expiry - 30)%Q ->
              s' = s /\ new = [(h, ask)]) in
    asks "devices" (get_devices E)
    /\ asks "mobileDevices" (get_mobile_devices E)
    /\ asks "zones" (get_zones E)
    /\ asks "zoneStates" (get_zone_states E).
Proof.
  intros s w asks. subst asks. cbv beta zeta.
  assert (Hacc : forall A B (loads : string -> option (list A))
                   (from_dict : A -> option B) (leaf : string) r s' w',
            (s0 <- self ;;
             response <- _request E (home_uri s0 leaf) None GET ;;
             obj <- decode loads response ;;
             comprehension from_dict obj) s w = (r, s', w') ->
            exists new,
              sent w' = (sent w ++ new)%list
              /\ (new = []
                  \/ exists h,
                       session s = Some h
                       /\ (new = [(h, refresh_request s)]
                           \/ new = [(h, api_request s' (home_uri s leaf)
                                           None GET)]
                           \/ new = [(h, refresh_request s);
                                     (h, api_request s' (home_uri s leaf)
                                           None GET)]))
              /\ (forall v, r = Ok v ->
                  exists h,
                    new = [(h, api_request s' (home_uri s leaf) None GET)]
                    \/ new = [(h, refresh_request s);
                              (h, api_request s' (home_uri s leaf)
                                    None GET)])
              /\ (forall h expiry,
                    session s = Some h -> _token_expiry s = Some expiry ->
                    (clock E (reads w) < expiry - 30)%Q ->
                    s' = s
                    /\ new = [(h, api_request s' (home_uri s leaf)
                                    None GET)])).
  { intros A B loads from_dict leaf r s' w' H.
    unfold bind at 1 in H. unfold self at 1 in H.
    destruct (fetch_run _ _ _ _ _ _ _ _ H) as (r0 & Hr & Hok).
    destruct (request_traffic _ _ _ _ _ _ _ _ Hr)
      as (new & H1 & H2 & H3 & H4).
    exists new. split; [assumption |]. split; [assumption |].
    split; [| assumption].
    intros v Hv. destruct (Hok v Hv) as [body Hb]. apply (H3 body Hb). }
  repeat match goal with |- _ /\ _ => split end.
  - destruct (get_devices E s w) as [[r s'] w'] eqn:H.
    apply (Hacc _ _ (orjson_loads E) (Device_from_dict E) "devices" _ _ _ H).
  - destruct (get_mobile_devices E s w) as [[r s'] w'] eqn:H.
    apply (Hacc _ _ (orjson_loads E) (MobileDevice_from_dict E)
             "mobileDevices" _ _ _ H).
  - destruct (get_zones E s w) as [[r s'] w'] eqn:H.
    apply (Hacc _ _ (orjson_loads E) (Zone_from_dict E) "zones" _ _ _ H).
  - destruct (get_zone_states E s w) as [[r s'] w'] eqn:H.
    apply (Hacc _ _ (orjson_loads E) (Zone_from_dict E) "zoneStates"
             _ _ _ H).
Qed.

End Properties.

(** ** Scenarios on the double *)

Lemma refresh_policy_witness :
  _refresh_auth (double calm) (fst (logged_in calm)) (snd (logged_in calm))
  = (Ok tt, fst (logged_in calm), tick (snd (logged_in calm)))
  /\ sent (snd (_refresh_auth (double late) (fst (logged_in late))
                  (snd (logged_in late))))
     = (sent (snd (logged_in late))
        ++ [(OwnHandle 0, refresh_request (fst (logged_in late)))])%list.
Proof.
  pose proof (refresh_policy (double calm) (fst (logged_in calm))
                (snd (logged_in calm)) (OwnHandle 0) 1300%Q
                ltac:(vm_compute; reflexivity) ltac:(vm_compute; reflexivity))
    as Hcalm.
  pose proof (refresh_policy (double late) (fst (logged_in late))
                (snd (logged_in late)) (OwnHandle 0) 1300%Q
                ltac:(vm_compute; reflexivity) ltac:(vm_compute; reflexivity))
    as Hlate.
  cbv zeta in Hcalm, Hlate.
  destruct Hcalm as (Hfresh & _). destruct Hlate as (_ & Hstale & _).
  split.
  - apply Hfresh. vm_compute. reflexivity.
  - apply Hstale. vm_compute. discriminate.
Defined.

Lemma timeout_is_connection_error_witness :
  ends_with (_login (double stuck)) new_object world0
    (TadoConnectionError timeout_message).
Proof.
  apply (proj1 (timeout_is_connection_error (double stuck) new_object world0
                  1 (OwnHandle 0)
                  (api_request (fst (logged_in stuck)) "me" None GET) I)).
  split; vm_compute; [repeat constructor | reflexivity].
Defined.

(** C2, as the code has it: a status of 400 or above is not turned into the
    error of that status.  A login whose grant is answered 401, a refresh
    whose grant is answered 401 and a request to the home that is answered
    400, 401, 403 or 500 all end with the library's
    [ClientConnectionError], of message [Connection closed]:
    [raise_for_status] has released the response, and the first
    [await request.text()] of [check_request_status] raises on it before the
    dictionary of the errors is built.  On a response that can be read the
    same function raises the error of the status, with the body. *)
Theorem rejected_status_is_not_mapped :
  server denying 0 (login_request new_object) = Answer 0 unauthorized
  /\ ends_with (_login denying) new_object world0 connection_closed
  /\ server revoked 2 (refresh_request (fst (logged_in late)))
     = Answer 0 unauthorized
  /\ ends_with (_refresh_auth revoked)
       (fst (logged_in late)) (snd (logged_in late)) connection_closed
  /\ Forall
       (fun code =>
          server (answering code) 2
            (api_request (fst (logged_in calm)) "homes/42/devices" None GET)
          = Answer 0 {| status := code; content_type := Some "text/plain";
                        text := "no" |}
          /\ ends_with (_request (answering code) "homes/42/devices" None GET)
               (fst (logged_in calm)) (snd (logged_in calm))
               connection_closed)
       [400; 401; 403; 500]%Z
  /\ (forall s w,
        @check_request_status unit true unauthorized s w
        = (Raise connection_closed, s, w))
  /\ (forall s w,
        @check_request_status unit false unauthorized s w
        = (Raise (TadoAuthenticationError
                    "Authentication error connecting to Tado. Response body: denied"),
           s, w)).
Proof.
  repeat match goal with
         | |- _ /\ _ => split
         | |- Forall _ _ => constructor
         end;
    try (intros s w); vm_compute; reflexivity.
Qed.

(** A response with the status 304 is not a 2xx response and passes the
    block of the site: the body is returned. *)
Lemma unmodified_answer_is_returned :
  server (double unmodified) 2
    (api_request (fst (logged_in unmodified)) "homes/42/devices" None GET)
  = Answer 0 {| status := 304; content_type := None; text := "cached" |}
  /\ fst (fst (_request (double unmodified) "homes/42/devices" None GET
                 (fst (logged_in unmodified)) (snd (logged_in unmodified))))
     = Ok "cached".
Proof. split; vm_compute; reflexivity. Qed.

(** C9, as the code has it: a token endpoint that answers the login with
    the status 200 and no [Content-Type] header.  The answer is not JSON,
    and the login does not end with the [TadoException] of an unexpected
    response: the test of line 81 is [... not in None], which raises
    [TypeError].  No token is stored. *)
Theorem login_answer_without_header_is_a_type_error :
  server headerless 0 (login_request new_object)
  = Answer 0 {| status := 200; content_type := None; text := "token" |}
  /\ ends_with (_login headerless) new_object world0 TypeError
  /\ _access_token (snd (fst (_login headerless new_object world0))) = None.
Proof. repeat split; vm_compute; reflexivity. Qed.

Lemma login_rejects_other_content_types_witness :
  ends_with (_login (double html)) new_object world0
    (TadoException
       "Unexpected response from Tado. Content-Type: text/html, Response body: token").
Proof.
  apply (login_rejects_other_content_types (double html) new_object world0
           0%Q (token_response html) "text/html" eq_refl);
    vm_compute; try reflexivity; try discriminate.
  split; [discriminate | reflexivity].
Defined.

(** C7 as stated fails: after a login that failed at [me], with the clock
    later within 30 of the expiry, two calls of [get_me] return the same
    object and make two transport calls, the refresh grant and the request
    to [me]. *)
Lemma get_me_is_memoized_counterexample :
  let E := double flaky in
  let s := fst (logged_in flaky) in
  let w := snd (logged_in flaky) in
  let first := get_me E s w in
  let second := get_me E (snd (fst first)) (snd first) in
  _me s = None
  /\ fst (fst first) = Ok {| homes := [ {| id := 42 |} ] |}
  /\ fst (fst second) = Ok {| homes := [ {| id := 42 |} ] |}
  /\ List.length (sent (snd second)) = (List.length (sent w) + 2)%nat.
Proof. repeat split; vm_compute; reflexivity. Qed.

Lemma get_me_is_memoized_witness :
  let E := double flaky in
  let s := fst (logged_in flaky) in
  let w := snd (logged_in flaky) in
  let first := get_me E s w in
  get_me E (snd (fst first)) (snd first)
  = (Ok {| homes := [ {| id := 42 |} ] |}, snd (fst first), snd first).
Proof.
  intros E s w first.
  apply (get_me_is_memoized E s w {| homes := [ {| id := 42 |} ] |}
           (snd (fst first)) (snd first)).
  vm_compute. reflexivity.
Defined.

(** C8 as stated fails: for a user without a home the fetch of the user
    succeeds and the login raises [IndexError], which is neither a
    [TadoException] nor the failure of a fetch. *)
Lemma login_without_homes_counterexample :
  let run := _login (double homeless) new_object world0 in
  fst (fst run) = Raise IndexError
  /\ _me (snd (fst run)) = Some {| homes := [] |}
  /\ (forall msg, fst (fst run) <> Raise (TadoException msg))
  /\ _home_id (snd (fst run)) = None.
Proof.
  repeat split; try (vm_compute; reflexivity).
  intro msg. vm_compute. discriminate.
Qed.

Lemma login_without_homes_witness :
  fst (fst (_login (double homeless) new_object world0)) = Raise IndexError.
Proof.
  apply (login_without_homes (double homeless) new_object world0).
  - intros me H. vm_compute in H. inversion H. reflexivity.
  - reflexivity.
  - vm_compute. discriminate.
Defined.

Lemma constructor_defaults_witness :
  request_timeout new_object = 10%Z /\ session new_object = None.
Proof.
  destruct (constructor_defaults (double calm) "user" "secret" [] []
              new_object eq_refl) as (_ & H1 & H2 & _).
  split; assumption.
Defined.

(** C10 as stated fails: a timeout or a handle passed to the constructor by
    keyword is a [TypeError] of the call, and a third positional argument is
    [debug], which leaves the request timeout at 10. *)
Lemma constructor_defaults_counterexample :
  construct "user" "secret" [] [("request_timeout", AInt 5)] = Raise TypeError
  /\ construct "user" "secret" [] [("timeout", AInt 5)] = Raise TypeError
  /\ construct "user" "secret" []
       [("session", AHandle (CallerHandle 0))] = Raise TypeError
  /\ construct "user" "secret" [AInt 5; AHandle (CallerHandle 0)] []
     = Raise TypeError
  /\ exists t, construct "user" "secret" [AInt 5] [] = Ok t
               /\ request_timeout t = 10%Z /\ session t = None.
Proof.
  repeat split; try reflexivity.
  eexists. repeat split; reflexivity.
Qed.

(** C5, as the code has it: on a new object, with a server whose token
    endpoint answers and whose [me] endpoint does not, the login fails after
    it has made its handle; the scope ends with the exception of the login
    and the handle is not closed. *)
Theorem failed_login_leaks_the_handle :
  let run := async_with (double stuck) (ret tt) new_object world0 in
  fst (fst run) = Raise (TadoConnectionError timeout_message)
  /\ session (snd (fst run)) = Some (OwnHandle 0)
  /\ _access_token (snd (fst run)) = Some "A"
  /\ made (snd run) = 1%nat
  /\ closed (snd run) = [].
Proof. repeat split; vm_compute; reflexivity. Qed.

Lemma end_to_end_witness :
  fst (fst (_login (double scenario) new_object world0)) = Ok tt
  /\ _home_id (snd (fst (_login (double scenario) new_object world0)))
     = Some 42%Z.
Proof.
  assert (Hmock : mock_server (double scenario) (token_response scenario)
                    me_response {| homes := [ {| id := 42 |} ] |}).
  { constructor; try reflexivity.
    - intros n req H. exists 0%Q. split; [| vm_compute; discriminate].
      simpl. rewrite H. reflexivity.
    - intros n req H. exists 0%Q. split; [| vm_compute; discriminate].
      simpl. rewrite H. reflexivity.
    - vm_compute. split; [discriminate | reflexivity].
    - vm_compute. split; [discriminate | reflexivity].
    - exists "application/json". split; reflexivity. }
  pose proof (end_to_end (double scenario) (token_response scenario)
                me_response {| homes := [ {| id := 42 |} ] |}
                "user" "secret" (ABool false) world0 Hmock) as H.
  cbv zeta in H. destruct H as (H1 & H2 & _).
  split; [exact H1 | exact H2].
Defined.

(** The bound of three transport calls is reached by a login whose tokens
    are within 30 of their expiry as soon as they are stored. *)
Lemma login_can_make_three_calls :
  List.length (sent (snd (_login (double short_lived) new_object world0)))
  = 3%nat.
Proof. vm_compute. reflexivity. Qed.

(** A login whose request to [me] is not answered, and one whose request
    to [me] is answered 403. *)
Lemma failed_call_is_the_last_witness :
  (ends_with (_login (double stuck)) new_object world0
     (TadoConnectionError timeout_message)
   /\ List.length (sent (snd (_login (double stuck) new_object world0)))
      = 2%nat)
  /\ (ends_with (_login (double forbidden)) new_object world0
        connection_closed
      /\ List.length (sent (snd (_login (double forbidden) new_object
                                   world0)))
         = 2%nat).
Proof.
  split.
  - pose proof (failed_call_is_the_last (double stuck) new_object world0
                  1%nat (OwnHandle 0)
                  (api_request (fst (logged_in stuck)) "me" None GET)
                  (TadoConnectionError timeout_message)
                  (or_introl (conj I eq_refl))) as H.
    cbv zeta beta in H. destruct H as [H _].
    apply H. split; vm_compute; [repeat constructor | reflexivity].
  - assert (Hf : failure (request_timeout new_object)
                   (server (double forbidden) 1
                      (api_request (fst (logged_in forbidden)) "me" None GET))
                   connection_closed).
    { right. left.
      exists 0%Q, {| status := 403; content_type := Some "text/plain";
                     text := "no" |}.
      repeat split; vm_compute; discriminate. }
    pose proof (failed_call_is_the_last (double forbidden) new_object world0
                  1%nat (OwnHandle 0)
                  (api_request (fst (logged_in forbidden)) "me" None GET)
                  connection_closed Hf) as H.
    cbv zeta beta in H. destruct H as [H _].
    apply H. split; vm_compute; [repeat constructor | reflexivity].
Defined.

Lemma connection_failure_is_not_mapped_witness :
  ends_with (_login (double unreachable)) new_object world0 ClientError.
Proof.
  apply (proj1 (connection_failure_is_not_mapped (double unreachable)
                  new_object world0 1%nat (OwnHandle 0)
                  (api_request (fst (logged_in unreachable)) "me" None GET)
                  0%Q eq_refl ltac:(vm_compute; discriminate))).
  split; vm_compute; [repeat constructor | reflexivity].
Defined.

(** A refresh grant that is not answered, and one that is answered 401. *)
Lemma failed_refresh_stops_the_request_witness :
  _request expired "homes/42/zones" None GET
    (fst (logged_in late)) (snd (logged_in late))
  = (Raise (TadoConnectionError timeout_message), fst (logged_in late),
     log (OwnHandle 0) (refresh_request (fst (logged_in late)))
       (tick (snd (logged_in late))))
  /\ _request revoked "homes/42/zones" None GET
       (fst (logged_in late)) (snd (logged_in late))
     = (Raise connection_closed, fst (logged_in late),
        log (OwnHandle 0) (refresh_request (fst (logged_in late)))
          (tick (snd (logged_in late)))).
Proof.
  split.
  - apply (failed_refresh_stops_the_request expired "homes/42/zones" None GET
             (fst (logged_in late)) (snd (logged_in late)) (OwnHandle 0)
             1300%Q (TadoConnectionError timeout_message)
             ltac:(vm_compute; reflexivity) ltac:(vm_compute; reflexivity)
             ltac:(vm_compute; discriminate)
             (or_introl (conj I eq_refl))).
  - apply (failed_refresh_stops_the_request revoked "homes/42/zones" None GET
             (fst (logged_in late)) (snd (logged_in late)) (OwnHandle 0)
             1300%Q connection_closed
             ltac:(vm_compute; reflexivity) ltac:(vm_compute; reflexivity)
             ltac:(vm_compute; discriminate)).
    right. left. exists 0%Q, unauthorized.
    repeat split; vm_compute; discriminate.
Defined.

Lemma token_answer_without_expiry_witness :
  fst (fst (_login partial new_object world0)) = Raise (KeyError "expires_in")
  /\ _access_token (snd (fst (_login partial new_object world0))) = Some "A"
  /\ _token_expiry (snd (fst (_login partial new_object world0))) = None.
Proof.
  pose proof (token_answer_without_expiry partial new_object world0 0%Q
                (token_response calm) "application/json" "A" (Some "R")
                eq_refl eq_refl ltac:(vm_compute; discriminate)
                ltac:(vm_compute; reflexivity) eq_refl eq_refl eq_refl) as H.
  cbv zeta in H. destruct H as (H1 & H2 & H3 & _).
  repeat split; assumption.
Defined.

Lemma request_after_refresh_uses_new_token_witness :
  _access_token
    (snd (fst (_request (double late) "homes/42/zones" None GET
                 (fst (logged_in late)) (snd (logged_in late)))))
  = Some "A"
  /\ _token_expiry
       (snd (fst (_request (double late) "homes/42/zones" None GET
                    (fst (logged_in late)) (snd (logged_in late)))))
     = Some ((1271 + 300)%Q).
Proof.
  pose proof (request_after_refresh_uses_new_token (double late)
                "homes/42/zones" None GET
                (fst (logged_in late)) (snd (logged_in late)) (OwnHandle 0)
                1300%Q 0%Q (token_response late) "A" 300%Q "R"
                ltac:(vm_compute; reflexivity) ltac:(vm_compute; reflexivity)
                ltac:(vm_compute; discriminate) ltac:(vm_compute; reflexivity)
                ltac:(vm_compute; discriminate) ltac:(vm_compute; reflexivity)
                ltac:(vm_compute; reflexivity)) as H.
  cbv zeta in H. destruct H as (H1 & _). rewrite H1.
  split; reflexivity.
Defined.

Lemma login_with_cached_user_witness :
  _login (double calm) (fst (logged_in calm)) (snd (logged_in calm))
  = (Ok tt,
     set_home_id (Some 42%Z)
       (store_tokens "A" (1100 + 300)%Q "R" (fst (logged_in calm))),
     tick (log (OwnHandle 0) (login_request (fst (logged_in calm)))
             (snd (logged_in calm)))).
Proof.
  apply (login_with_cached_user (double calm) (fst (logged_in calm))
           (snd (logged_in calm)) (OwnHandle 0)
           {| homes := [ {| id := 42 |} ] |} {| id := 42 |} []
           0%Q (token_response calm) "application/json" "A" 300%Q "R"
           ltac:(vm_compute; reflexivity) ltac:(vm_compute; reflexivity)
           eq_refl ltac:(vm_compute; reflexivity)
           ltac:(vm_compute; discriminate) ltac:(vm_compute; reflexivity)
           eq_refl eq_refl ltac:(vm_compute; reflexivity)).
Defined.

Lemma cached_user_is_never_replaced_witness :
  _me (fst (calls (double calm) [CallLogin; CallGetZones; CallClose]
              (fst (logged_in calm)) (snd (logged_in calm))))
  = Some {| homes := [ {| id := 42 |} ] |}.
Proof.
  apply (cached_user_is_never_replaced (double calm)
           [CallLogin; CallGetZones; CallClose]
           (fst (logged_in calm)) (snd (logged_in calm))).
  vm_compute. reflexivity.
Defined.

Lemma scope_closes_its_own_handle_witness :
  closed (snd (async_with (double calm) (forget (get_devices (double calm)))
                 new_object world0))
  = [OwnHandle 0].
Proof.
  pose (body := forget (get_devices (double calm))).
  pose (s1 := fst (logged_in calm)). pose (w1 := snd (logged_in calm)).
  destruct (scope_closes_its_own_handle (double calm) unit body
              new_object world0 s1 w1
              (fst (fst (body s1 w1))) (snd (fst (body s1 w1)))
              (snd (body s1 w1))
              (sound_forget (double calm) (get_devices (double calm))
                 (sound_get_devices (double calm)))
              eq_refl ltac:(vm_compute; reflexivity)
              ltac:(destruct (body s1 w1) as [[? ?] ?]; reflexivity))
    as (H1 & H2 & _).
  fold body. rewrite H1. exact H2.
Defined.

Lemma scope_with_a_caller_handle_raises_witness :
  fst (fst (async_with (double calm) (ret tt) borrowing world0))
  = Raise AttributeError.
Proof.
  pose (s1 := snd (fst (_login (double calm) borrowing world0))).
  pose (w1 := snd (_login (double calm) borrowing world0)).
  destruct (scope_with_a_caller_handle_raises (double calm) unit (ret tt)
              borrowing world0 (CallerHandle 0) s1 w1 (Ok tt) s1 w1
              (fun s => at_ret (double calm) s tt)
              eq_refl eq_refl ltac:(vm_compute; reflexivity) eq_refl)
    as (H1 & _).
  rewrite H1. reflexivity.
Defined.

Lemma close_keeps_the_closed_handle_witness :
  close (fst (logged_in calm)) (snd (logged_in calm))
  = (Ok tt, fst (logged_in calm),
     shut (OwnHandle 0) (snd (logged_in calm))).
Proof.
  apply (close_keeps_the_closed_handle (double calm) (fst (logged_in calm))
           (snd (logged_in calm)) (OwnHandle 0));
    vm_compute; reflexivity.
Defined.

(** After a login at 1000 with a lifetime of 300, [get_devices] at 1100
    sends one request, to [homes/42/devices], and nothing else. *)
Lemma accessors_request_their_path_witness :
  sent (snd (get_devices (double calm)
               (fst (logged_in calm)) (snd (logged_in calm))))
  = (sent (snd (logged_in calm)) ++ [(OwnHandle 0, devices_request)])%list.
Proof.
  pose proof (accessors_request_their_path (double calm)
                (fst (logged_in calm)) (snd (logged_in calm))) as H.
  cbv zeta beta in H. destruct H as [(new & H1 & _ & _ & H4) _].
  destruct (H4 (OwnHandle 0) 1300%Q
              ltac:(vm_compute; reflexivity) ltac:(vm_compute; reflexivity)
              ltac:(vm_compute; reflexivity)) as [Hs Hn].
  rewrite H1, Hn, Hs. vm_compute. reflexivity.
Defined.
